(** * NeuralDB metadata values, constraints and the C binding's builders

    A shallow embedding of [internal/ndb/include/Constraints.h],
    [internal/ndb/include/NeuralDB.h] and [internal/ndb/binding.cc], with the
    properties of the typed metadata value system, the constraint engine and
    the document/constraint builders of the C binding.

    Conventions of the embedding:
    - C++ exceptions are values of [exception]; a function that may throw
      returns [result A] and is sequenced with stdpp's monadic notations;
    - [std::string] is [string] (a sequence of 8-bit characters), compared
      the way [std::char_traits<char>] does, as unsigned bytes;
    - [int] is a [Z] in the 32-bit signed range, [float] is a [spec_float]
      (IEEE 754 binary32: [prec = 24], [emax = 128]);
    - [std::unordered_map<std::string, V>] is [gmap string V]. *)

From Stdlib Require Import ZArith Ascii SpecFloat.
From stdpp Require Import base option list strings gmap fin_maps.

Local Open Scope Z_scope.

(** ** Exceptions *)

Inductive exception : Type :=
  | runtime_error (what : string)
  | bad_variant_access
  | out_of_range
  | invalid_argument (what : string).

Inductive result (A : Type) : Type :=
  | Ok (a : A)
  | Throw (e : exception).

Arguments Ok {A} a.
Arguments Throw {A} e.

#[global] Instance result_ret : MRet result := @Ok.
#[global] Instance result_bind : MBind result := λ A B f m,
  match m with
  | Ok a => f a
  | Throw e => Throw e
  end.

(** [returns m]: the call completes normally. *)
Definition returns {A} (m : result A) : Prop := ∃ a, m = Ok a.

(** ** The parts of the C++ standard library the code relies on *)

Module Std.

(** [std::char_traits<char>::lt]: characters compare as [unsigned char]. *)
Definition char_lt (c d : ascii) : bool :=
  (N_of_ascii c <? N_of_ascii d)%N.

(** [std::char_traits<char>::compare(s1, s2, n)]: the sign of the first
    difference among the first [n] characters. *)
Fixpoint traits_compare (s1 s2 : string) (n : nat) : Z :=
  match n with
  | O => 0
  | S n' =>
      match s1, s2 with
      | String c1 r1, String c2 r2 =>
          if char_lt c1 c2 then -1
          else if char_lt c2 c1 then 1
          else traits_compare r1 r2 n'
      | _, _ => 0
      end
  end.

Definition INT_MAX : Z := 2147483647.
Definition INT_MIN : Z := -2147483648.

(** [basic_string::_S_compare]: the difference of the sizes, clamped to
    [int]. *)
Definition S_compare (n1 n2 : nat) : Z :=
  let d := Z.of_nat n1 - Z.of_nat n2 in
  if d >? INT_MAX then INT_MAX
  else if d <? INT_MIN then INT_MIN
  else d.

(** [basic_string::compare(str)]. *)
Definition string_compare (s str : string) : Z :=
  let size := String.length s in
  let osize := String.length str in
  let len := Nat.min size osize in
  let r := traits_compare s str len in
  if r =? 0 then S_compare size osize else r.

(** [operator==], [operator<] and [operator>] on [std::string]. *)
Definition string_eq (lhs rhs : string) : bool :=
  (String.length lhs =? String.length rhs)%nat
  && (traits_compare lhs rhs (String.length lhs) =? 0).
Definition string_lt (lhs rhs : string) : bool := string_compare lhs rhs <? 0.
Definition string_gt (lhs rhs : string) : bool := string_compare lhs rhs >? 0.

(** [s] starts with [p], character by character ([traits::eq]). *)
Fixpoint starts_with (p s : string) : bool :=
  match p, s with
  | EmptyString, _ => true
  | String a p', String b s' => Ascii.eqb a b && starts_with p' s'
  | String _ _, EmptyString => false
  end.

(** [basic_string::find(str, pos)] on the part of the string that starts
    at [pos]: the lowest position at which [str] occurs, [None] for
    [npos]. *)
Fixpoint find_from (s str : string) (pos : nat) : option nat :=
  if starts_with str s then Some pos
  else match s with
       | EmptyString => None
       | String _ rest => find_from rest str (S pos)
       end.

Definition find (s str : string) : option nat := find_from s str 0.

(** [... != std::string::npos]. *)
Definition not_npos (r : option nat) : bool :=
  match r with Some _ => true | None => false end.

(** [operator<] and [operator>] on [bool], after integral promotion. *)
Definition bool_lt (a b : bool) : bool := Z.b2z a <? Z.b2z b.
Definition bool_gt (a b : bool) : bool := Z.b2z a >? Z.b2z b.

(** [operator>] on [float]. *)
Definition SFgtb (f1 f2 : spec_float) : bool :=
  match SFcompare f1 f2 with
  | Some Gt => true
  | _ => false
  end.

(** [std::variant<bool, int, float, std::string>]. *)
Inductive variant : Type :=
  | holds_bool (b : bool)
  | holds_int (i : Z)
  | holds_float (f : spec_float)
  | holds_string (s : string).

(** A default-constructed variant holds a value-initialised first
    alternative. *)
Definition variant_default : variant := holds_bool false.

Definition index (v : variant) : nat :=
  match v with
  | holds_bool _ => 0
  | holds_int _ => 1
  | holds_float _ => 2
  | holds_string _ => 3
  end.

(** [std::get<T>(v)] throws [std::bad_variant_access] when [v] holds
    another alternative. *)
Definition get_bool (v : variant) : result bool :=
  match v with holds_bool b => Ok b | _ => Throw bad_variant_access end.
Definition get_int (v : variant) : result Z :=
  match v with holds_int i => Ok i | _ => Throw bad_variant_access end.
Definition get_float (v : variant) : result spec_float :=
  match v with holds_float f => Ok f | _ => Throw bad_variant_access end.
Definition get_string (v : variant) : result string :=
  match v with holds_string s => Ok s | _ => Throw bad_variant_access end.

(** [operator==(v, w)]: same alternative and equal contents. *)
Definition variant_eq (v w : variant) : bool :=
  if negb (index v =? index w)%nat then false
  else match v, w with
       | holds_bool a, holds_bool b => Bool.eqb a b
       | holds_int a, holds_int b => a =? b
       | holds_float a, holds_float b => SFeqb a b
       | holds_string a, holds_string b => string_eq a b
       | _, _ => false
       end.

(** [operator<(v, w)]: by index first, then by contents. *)
Definition variant_lt (v w : variant) : bool :=
  if (index v <? index w)%nat then true
  else if (index w <? index v)%nat then false
  else match v, w with
       | holds_bool a, holds_bool b => bool_lt a b
       | holds_int a, holds_int b => a <? b
       | holds_float a, holds_float b => SFltb a b
       | holds_string a, holds_string b => string_lt a b
       | _, _ => false
       end.

(** [operator>(v, w)]. *)
Definition variant_gt (v w : variant) : bool :=
  if (index w <? index v)%nat then true
  else if (index v <? index w)%nat then false
  else match v, w with
       | holds_bool a, holds_bool b => bool_gt a b
       | holds_int a, holds_int b => a >? b
       | holds_float a, holds_float b => SFgtb a b
       | holds_string a, holds_string b => string_gt a b
       | _, _ => false
       end.

(** [std::any_of(first, last, p)], for a predicate that may throw: the
    elements are tried in order up to the first one that satisfies [p]. *)
Fixpoint any_of {A} (p : A → result bool) (l : list A) : result bool :=
  match l with
  | [] => Ok false
  | x :: l' => b ← p x; if b : bool then Ok true else any_of p l'
  end.

End Std.

(** ** Constraints.h: metadata values *)

Module MetadataType.

Inductive t : Type := Bool | Int | Float | Str | Nil.

#[global] Instance eq_dec : EqDecision t.
Proof. solve_decision. Defined.

End MetadataType.

Module MetadataValue.
Import Std.

(** The two private members, [_type] and [_value]. *)
Record t : Type := mk { _type : MetadataType.t; _value : variant }.

(** [MetadataValue()] *)
Definition default : t := mk MetadataType.Nil variant_default.

Definition Bool (value : bool) : t := mk MetadataType.Bool (holds_bool value).
Definition Int (value : Z) : t := mk MetadataType.Int (holds_int value).
Definition Float (value : spec_float) : t :=
  mk MetadataType.Float (holds_float value).
Definition Str (value : string) : t := mk MetadataType.Str (holds_string value).

(** The two-argument constructor is private: the values a client can hold
    are those of the default constructor and of the four factories, whose
    arguments range over [int] and [float]. *)
Definition is_int (i : Z) : Prop := INT_MIN <= i <= INT_MAX.
Definition is_float (f : spec_float) : Prop := valid_binary 24 128 f = true.

Inductive constructed : t → Prop :=
  | constructed_default : constructed default
  | constructed_Bool b : constructed (Bool b)
  | constructed_Int i : is_int i → constructed (Int i)
  | constructed_Float f : is_float f → constructed (Float f)
  | constructed_Str s : constructed (Str s).

Definition type (self : t) : MetadataType.t := _type self.

(** The [default] branch of the [switch], which throws, is not reached by
    any of the five enumerators. *)
Definition typeToString (type : MetadataType.t) : string :=
  match type with
  | MetadataType.Bool => "bool"
  | MetadataType.Int => "int"
  | MetadataType.Float => "float"
  | MetadataType.Str => "str"
  | MetadataType.Nil => "nil"
  end.

(** The error of [checkType], the spec's TypeMismatch. *)
Definition TypeMismatch (stored expected : MetadataType.t) : exception :=
  runtime_error
    (String.append "cannot convert metadata type "
       (String.append (typeToString stored)
          (String.append " to type " (typeToString expected)))).

Definition checkType (self : t) (expected : MetadataType.t) : result unit :=
  if bool_decide (_type self ≠ expected)
  then Throw (TypeMismatch (_type self) expected)
  else Ok ().

Definition asBool (self : t) : result bool :=
  checkType self MetadataType.Bool;; get_bool (_value self).

Definition asInt (self : t) : result Z :=
  checkType self MetadataType.Int;; get_int (_value self).

Definition asFloat (self : t) : result spec_float :=
  checkType self MetadataType.Float;; get_float (_value self).

Definition asStr (self : t) : result string :=
  checkType self MetadataType.Str;; get_string (_value self).

Definition equals (self other : t) : result bool :=
  Ok (bool_decide (_type self = _type other)
      && variant_eq (_value self) (_value other)).

Definition lessThan (self other : t) : result bool :=
  Ok (bool_decide (_type self = _type other)
      && variant_lt (_value self) (_value other)).

Definition greaterThan (self other : t) : result bool :=
  Ok (bool_decide (_type self = _type other)
      && variant_gt (_value self) (_value other)).

(** The two tag tests short-circuit: [asStr] is only reached when both
    values are tagged [Str]. *)
Definition hasSubstring (self other : t) : result bool :=
  if bool_decide (_type self = MetadataType.Str) then
    if bool_decide (_type other = MetadataType.Str) then
      s ← asStr self;
      o ← asStr other;
      Ok (not_npos (find s o))
    else Ok false
  else Ok false.

End MetadataValue.

(** [MetadataMap] is [gmap string MetadataValue.t]. *)

(** ** Constraints.h: constraints *)

Module Constraint.

(** The five final subclasses of [Constraint], each with its member. *)
Inductive t : Type :=
  | EqualTo (_value : MetadataValue.t)
  | Substring (_value : MetadataValue.t)
  | AnyOf (_values : list MetadataValue.t)
  | LessThan (_value : MetadataValue.t)
  | GreaterThan (_value : MetadataValue.t).

(** The virtual [matches], by subclass. *)
Definition matches (self : t) (value : MetadataValue.t) : result bool :=
  match self with
  | EqualTo _value => MetadataValue.equals _value value
  | Substring _value => MetadataValue.hasSubstring value _value
  | AnyOf _values =>
      Std.any_of (λ v, MetadataValue.equals value v) _values
  | LessThan _value => MetadataValue.lessThan value _value
  | GreaterThan _value => MetadataValue.greaterThan value _value
  end.

(** A constraint built from constructed values. *)
Definition constructed (c : t) : Prop :=
  match c with
  | EqualTo v | Substring v | LessThan v | GreaterThan v =>
      MetadataValue.constructed v
  | AnyOf vs => Forall MetadataValue.constructed vs
  end.

End Constraint.

(** [QueryConstraints] is [gmap string Constraint.t]: the map owns one
    constraint per key; the sharing of [std::shared_ptr] is not observable
    through [matches]. *)

(** Modelled from the spec: the body of the top-level
    [matches(constraints, metadata)], which Constraints.h only declares.
    Following the spec's data model, every (key, constraint) pair of the
    constraints is visited; the metadata must contain the key and the
    constraint must match the value stored there, otherwise the result is
    [false]. *)
Fixpoint matches_pairs (pairs : list (string * Constraint.t))
    (metadata : gmap string MetadataValue.t) : result bool :=
  match pairs with
  | [] => Ok true
  | (key, constraint) :: rest =>
      match metadata !! key with
      | None => Ok false
      | Some value =>
          b ← Constraint.matches constraint value;
          if b : bool then matches_pairs rest metadata else Ok false
      end
  end.

(** Modelled from the spec: the top-level [matches], declared in
    Constraints.h, over the pairs of the constraints. *)
Definition matches (constraints : gmap string Constraint.t)
    (metadata : gmap string MetadataValue.t) : result bool :=
  matches_pairs (map_to_list constraints) metadata.

(** ** binding.cc: the builders of the C interface

    Each C function that mutates the object behind its first pointer
    argument becomes a function from the object to the updated object. *)

Module Binding.

Record MetadataValue_t : Type := { value : MetadataValue.t }.

Definition MetadataValue_bool (value : bool) : MetadataValue_t :=
  {| value := MetadataValue.Bool value |}.
Definition MetadataValue_int (value : Z) : MetadataValue_t :=
  {| value := MetadataValue.Int value |}.
Definition MetadataValue_float (value : spec_float) : MetadataValue_t :=
  {| value := MetadataValue.Float value |}.
Definition MetadataValue_str (value : string) : MetadataValue_t :=
  {| value := MetadataValue.Str value |}.

Record Document_t : Type := {
  chunks : list string;
  metadata : list (gmap string MetadataValue.t);
  document : string;
  doc_id : string;
  doc_version : option N;
}.

Definition Document_new (document doc_id : string) : Document_t :=
  {| chunks := []; metadata := []; document := document; doc_id := doc_id;
     doc_version := None |}.

Definition Document_add_chunk (doc : Document_t) (chunk : string)
    : Document_t :=
  {| chunks := chunks doc ++ [chunk];
     metadata := metadata doc ++ [∅];
     document := document doc; doc_id := doc_id doc;
     doc_version := doc_version doc |}.

Definition Document_set_version (doc : Document_t) (version : N)
    : Document_t :=
  {| chunks := chunks doc; metadata := metadata doc;
     document := document doc; doc_id := doc_id doc;
     doc_version := Some version |}.

(** [doc->metadata.at(i)[key] = value->value]: [at] throws
    [std::out_of_range] before anything is written. *)
Definition Document_add_metadata (doc : Document_t) (i : nat) (key : string)
    (v : MetadataValue_t) : result Document_t :=
  match metadata doc !! i with
  | None => Throw out_of_range
  | Some m =>
      Ok {| chunks := chunks doc;
            metadata := <[i := <[key := value v]> m]> (metadata doc);
            document := document doc; doc_id := doc_id doc;
            doc_version := doc_version doc |}
  end.

(** The calls a client can make on a document between [Document_new] and
    [NeuralDB_insert]. *)
Inductive DocumentCall : Type :=
  | add_chunk (chunk : string)
  | set_version (version : N)
  | add_metadata (i : nat) (key : string) (v : MetadataValue_t).

Definition call (doc : Document_t) (c : DocumentCall) : result Document_t :=
  match c with
  | add_chunk chunk => Ok (Document_add_chunk doc chunk)
  | set_version version => Ok (Document_set_version doc version)
  | add_metadata i key v => Document_add_metadata doc i key v
  end.

(** The document after a call: a call that throws has written nothing. *)
Definition after (doc : Document_t) (c : DocumentCall) : Document_t :=
  match call doc c with
  | Ok doc' => doc'
  | Throw _ => doc
  end.

Definition after_all (doc : Document_t) (cs : list DocumentCall)
    : Document_t :=
  foldl after doc cs.

Record Constraints_t : Type := { constraints : gmap string Constraint.t }.

Definition Constraints_new : Constraints_t := {| constraints := ∅ |}.

Definition BinaryConstraintEq : Z := 0.
Definition BinaryConstraintLt : Z := 1.
Definition BinaryConstraintGt : Z := 2.
Definition BinaryConstraintSubstr : Z := 3.

(** [constraints->constraints[key] = c]. *)
Definition assign (cs : Constraints_t) (key : string) (c : Constraint.t)
    : Constraints_t :=
  {| constraints := <[key := c]> (constraints cs) |}.

(** The [switch] has no [default]: another [op] leaves the set as it is. *)
Definition Constraints_add_binary_constraint (cs : Constraints_t) (op : Z)
    (key : string) (v : MetadataValue_t) : Constraints_t :=
  if op =? BinaryConstraintEq then
    assign cs key (Constraint.EqualTo (value v))
  else if op =? BinaryConstraintLt then
    assign cs key (Constraint.LessThan (value v))
  else if op =? BinaryConstraintGt then
    assign cs key (Constraint.GreaterThan (value v))
  else if op =? BinaryConstraintSubstr then
    assign cs key (Constraint.Substring (value v))
  else cs.

(** [values] stands for the array [values] of length [n]: the loop pushes
    the [n] pointed values onto [value_vec], in order. *)
Definition Constraints_add_any_of_constraint (cs : Constraints_t)
    (key : string) (values : list MetadataValue_t) : Constraints_t :=
  let value_vec := foldl (λ vec v, vec ++ [value v]) [] values in
  assign cs key (Constraint.AnyOf value_vec).

(** One addition to a constraint set, by either entry point. *)
Inductive Addition : Type :=
  | binary (op : Z) (v : MetadataValue_t)
  | any_of (values : list MetadataValue_t).

Definition add (cs : Constraints_t) (key : string) (a : Addition)
    : Constraints_t :=
  match a with
  | binary op v => Constraints_add_binary_constraint cs op key v
  | any_of values => Constraints_add_any_of_constraint cs key values
  end.

End Binding.

(** ** Chunk.h, NeuralDB.h: the store

    [ChunkId] is [uint64_t] and [DocId] is [std::string]; versions are
    [uint32_t]. *)

Module Chunk.
Record t : Type := mk {
  id : N;
  text : string;
  document : string;
  doc_id : string;
  doc_version : N;
  metadata : gmap string MetadataValue.t;
}.
End Chunk.

Module InsertMetadata.
Record t : Type := mk {
  doc_id : string;
  doc_version : N;
  start_id : N;
  end_id : N;
}.

(** Modelled from the spec: the endpoint convention of the range, which
    NeuralDB.h does not state and the spec asks the implementation to fix.
    The model fixes the half-open one: an id is in the range when
    [start_id <= id < end_id]. *)
Definition contains (im : t) (id : N) : Prop :=
  (start_id im <= id < end_id im)%N.

(** Modelled from the spec: the length of the range under the half-open
    convention. *)
Definition range_length (im : t) : N := (end_id im - start_id im)%N.
End InsertMetadata.

Module NeuralDB.

(** Modelled from the spec: the state behind the pure virtual operations of
    NeuralDB.h, whose implementation (OnDiskNeuralDB.h declares it) is not
    among the sources. Following the spec's contract, a store is the chunks
    it currently holds and the counter from which chunk ids are assigned
    monotonically. The counter is a natural number: the spec's allocator
    never reuses an id, and the model does not bound it by the 64 bits of
    [ChunkId]. *)
Record store : Type := { next_id : N; chunks : list Chunk.t }.

(** Modelled from the spec: a store that has seen no call. *)
Definition empty : store := {| next_id := 0; chunks := [] |}.

(** Modelled from the spec: the versions stored for a document. *)
Definition versions (st : store) (doc_id : string) : list N :=
  Chunk.doc_version <$>
    filter (λ c, Chunk.doc_id c = doc_id) (chunks st).

(** Modelled from the spec: the highest version stored for a document,
    0 when there is none, so that the first version assigned is 1. *)
Definition latest_version (st : store) (doc_id : string) : N :=
  foldr N.max 0%N (versions st doc_id).

(** Modelled from the spec: the chunks of one insert, which take the
    contiguous ids from [start] on, in chunk order, each with the metadata
    map at its position. *)
Fixpoint make_chunks (start : N) (texts : list string)
    (metadata : list (gmap string MetadataValue.t))
    (document doc_id : string) (version : N) : list Chunk.t :=
  match texts, metadata with
  | text :: texts', m :: metadata' =>
      Chunk.mk start text document doc_id version m
      :: make_chunks (N.succ start) texts' metadata' document doc_id version
  | _, _ => []
  end.

(** Modelled from the spec: [insert], of which NeuralDB.h has only the
    signature. Parallel arrays of different lengths are an InvalidArgument
    error that changes nothing; an omitted version is the next one for the
    document; the chunks take the ids from the counter on and the counter
    moves past them; the result carries the version used and the range
    [start_id, end_id) of the ids. *)
Definition insert (st : store) (texts : list string)
    (metadata : list (gmap string MetadataValue.t))
    (document doc_id : string) (doc_version : option N)
    : result (InsertMetadata.t * store) :=
  if negb (length texts =? length metadata)%nat then
    Throw (invalid_argument "chunks and metadata must have equal length")
  else
    let version :=
      default (N.succ (latest_version st doc_id)) doc_version in
    let start_id := next_id st in
    let end_id := (start_id + N.of_nat (length texts))%N in
    Ok (InsertMetadata.mk doc_id version start_id end_id,
        {| next_id := end_id;
           chunks := chunks st
             ++ make_chunks start_id texts metadata document doc_id version |}).

(** Modelled from the spec: [deleteDocVersion] removes exactly the chunks
    of that version of the document; the counter stays. *)
Definition deleteDocVersion (st : store) (doc_id : string) (doc_version : N)
    : store :=
  {| next_id := next_id st;
     chunks := filter (λ c, ¬ (Chunk.doc_id c = doc_id
                               ∧ Chunk.doc_version c = doc_version))
                 (chunks st) |}.

(** Modelled from the spec: [deleteDoc] removes every version of the
    document, or every version but the highest; the counter stays. *)
Definition deleteDoc (st : store) (doc_id : string)
    (keep_latest_version : bool) : store :=
  let latest := latest_version st doc_id in
  {| next_id := next_id st;
     chunks := filter (λ c, ¬ (Chunk.doc_id c = doc_id
                               ∧ ¬ (keep_latest_version = true
                                    ∧ Chunk.doc_version c = latest)))
                 (chunks st) |}.

(** Modelled from the spec: [prune] removes no live chunk. *)
Definition prune (st : store) : store := st.

(** Modelled from the spec: the calls of a store's lifetime that can
    change it. *)
Inductive Call : Type :=
  | Insert (texts : list string)
      (metadata : list (gmap string MetadataValue.t))
      (document doc_id : string) (doc_version : option N)
  | DeleteDocVersion (doc_id : string) (doc_version : N)
  | DeleteDoc (doc_id : string) (keep_latest_version : bool)
  | Prune.

(** Modelled from the spec: one call, giving the store after it and, for an
    [insert] that succeeds, what it returned. A failing call changes
    nothing. *)
Definition step (st : store) (c : Call) : store * option InsertMetadata.t :=
  match c with
  | Insert texts metadata document doc_id doc_version =>
      match insert st texts metadata document doc_id doc_version with
      | Ok (im, st') => (st', Some im)
      | Throw _ => (st, None)
      end
  | DeleteDocVersion doc_id doc_version =>
      (deleteDocVersion st doc_id doc_version, None)
  | DeleteDoc doc_id keep_latest_version =>
      (deleteDoc st doc_id keep_latest_version, None)
  | Prune => (prune st, None)
  end.

(** Modelled from the spec: a history of calls, giving what each call
    returned, call by call. *)
Fixpoint run (st : store) (cs : list Call) : list (option InsertMetadata.t) :=
  match cs with
  | [] => []
  | c :: cs' => let '(st', r) := step st c in r :: run st' cs'
  end.

End NeuralDB.

(** ** NeuralDB.h: sources *)

Module Source.
Record t : Type := mk {
  document : string;
  doc_id : string;
  doc_version : N;
}.
End Source.

(** ** binding.cc: the lists handed across the C interface

    An index [unsigned int i] is a natural number; a length returned as
    [unsigned int] is the [size_t] size reduced modulo [2^32]. The accessors
    that return [const char *] give the contents of the string pointed to. *)

Module BindingLists.

(** The conversion of a [size_t] to [unsigned int]. *)
Definition to_unsigned_int (n : nat) : Z := Z.of_nat n mod 2 ^ 32.

(** [v.at(i)], which throws [std::out_of_range] past the end. *)
Definition vector_at {A} (v : list A) (i : nat) : result A :=
  match v !! i with
  | Some x => Ok x
  | None => Throw out_of_range
  end.

(** [int(type)] for the enumerators of [MetadataType], in their order of
    declaration. *)
Definition type_code (type : MetadataType.t) : Z :=
  match type with
  | MetadataType.Bool => 0
  | MetadataType.Int => 1
  | MetadataType.Float => 2
  | MetadataType.Str => 3
  | MetadataType.Nil => 4
  end.

Record MetadataList_t : Type :=
  { metadata : list (string * MetadataValue.t) }.

Definition MetadataList_len (m : MetadataList_t) : Z :=
  to_unsigned_int (length (metadata m)).

Definition MetadataList_key (m : MetadataList_t) (i : nat) : result string :=
  p ← vector_at (metadata m) i; Ok p.1.

Definition MetadataList_type (m : MetadataList_t) (i : nat) : result Z :=
  p ← vector_at (metadata m) i; Ok (type_code (MetadataValue.type p.2)).

Definition MetadataList_bool (m : MetadataList_t) (i : nat) : result bool :=
  p ← vector_at (metadata m) i; MetadataValue.asBool p.2.

Definition MetadataList_int (m : MetadataList_t) (i : nat) : result Z :=
  p ← vector_at (metadata m) i; MetadataValue.asInt p.2.

Definition MetadataList_float (m : MetadataList_t) (i : nat)
    : result spec_float :=
  p ← vector_at (metadata m) i; MetadataValue.asFloat p.2.

Definition MetadataList_str (m : MetadataList_t) (i : nat) : result string :=
  p ← vector_at (metadata m) i; MetadataValue.asStr p.2.

Record QueryResults_t : Type :=
  { results : list (Chunk.t * spec_float) }.

Definition QueryResults_len (r : QueryResults_t) : Z :=
  to_unsigned_int (length (results r)).

Definition QueryResults_id (r : QueryResults_t) (i : nat) : result N :=
  p ← vector_at (results r) i; Ok (Chunk.id p.1).

Definition QueryResults_text (r : QueryResults_t) (i : nat) : result string :=
  p ← vector_at (results r) i; Ok (Chunk.text p.1).

Definition QueryResults_document (r : QueryResults_t) (i : nat)
    : result string :=
  p ← vector_at (results r) i; Ok (Chunk.document p.1).

Definition QueryResults_doc_id (r : QueryResults_t) (i : nat)
    : result string :=
  p ← vector_at (results r) i; Ok (Chunk.doc_id p.1).

Definition QueryResults_doc_version (r : QueryResults_t) (i : nat)
    : result N :=
  p ← vector_at (results r) i; Ok (Chunk.doc_version p.1).

Definition QueryResults_score (r : QueryResults_t) (i : nat)
    : result spec_float :=
  p ← vector_at (results r) i; Ok p.2.

(** [out->metadata = {metadata_map.begin(), metadata_map.end()}]: the pairs
    of the map, in the order the map enumerates them. *)
Definition QueryResults_metadata (r : QueryResults_t) (i : nat)
    : result MetadataList_t :=
  p ← vector_at (results r) i;
  Ok {| metadata := map_to_list (Chunk.metadata p.1) |}.

Record StringList_t : Type := { StringList_list : list string }.

Definition StringList_new : StringList_t := {| StringList_list := [] |}.

Definition StringList_append (l : StringList_t) (value : string)
    : StringList_t :=
  {| StringList_list := StringList_list l ++ [value] |}.

Record LabelList_t : Type := { LabelList_list : list (list N) }.

Definition LabelList_new : LabelList_t := {| LabelList_list := [] |}.

(** [list->list.emplace_back(std::vector<uint64_t>{value})]. *)
Definition LabelList_append (l : LabelList_t) (value : N) : LabelList_t :=
  {| LabelList_list := LabelList_list l ++ [[value]] |}.

Record Sources_t : Type := { sources : list Source.t }.

Definition Sources_len (s : Sources_t) : Z :=
  to_unsigned_int (length (sources s)).

Definition Sources_document (s : Sources_t) (i : nat) : result string :=
  x ← vector_at (sources s) i; Ok (Source.document x).

Definition Sources_doc_id (s : Sources_t) (i : nat) : result string :=
  x ← vector_at (sources s) i; Ok (Source.doc_id x).

Definition Sources_doc_version (s : Sources_t) (i : nat) : result N :=
  x ← vector_at (sources s) i; Ok (Source.doc_version x).

End BindingLists.

(** ** The vocabulary of the specification *)

(** [needle] occurs in [hay] as a contiguous run of characters. *)
Definition occurs_in (needle hay : string) : Prop :=
  ∃ before behind, hay = String.append before (String.append needle behind).

(** The lexicographic order of strings over the order of their characters
    read as unsigned bytes: a proper prefix comes first, otherwise the first
    difference decides. *)
Inductive lex_lt : string → string → Prop :=
  | lex_lt_prefix c t : lex_lt EmptyString (String c t)
  | lex_lt_first c d s t :
      (N_of_ascii c < N_of_ascii d)%N → lex_lt (String c s) (String d t)
  | lex_lt_rest c s t : lex_lt s t → lex_lt (String c s) (String c t).

(** The strict order of the scalars two values of the same kind hold:
    [false < true], the order of the integers, the IEEE 754 order of the
    floats (in which a NaN is below nothing and nothing is below a NaN) and
    the lexicographic order of strings. Two default values hold nothing to
    order. *)
Inductive scalar_lt : MetadataValue.t → MetadataValue.t → Prop :=
  | scalar_lt_Bool :
      scalar_lt (MetadataValue.Bool false) (MetadataValue.Bool true)
  | scalar_lt_Int i j :
      i < j → scalar_lt (MetadataValue.Int i) (MetadataValue.Int j)
  | scalar_lt_Float f g :
      SFltb f g = true →
      scalar_lt (MetadataValue.Float f) (MetadataValue.Float g)
  | scalar_lt_Str s t :
      lex_lt s t → scalar_lt (MetadataValue.Str s) (MetadataValue.Str t).

(** Two values of the same kind that hold equal scalars: the same boolean,
    integer or string, floats that are equal in IEEE 754 (the two zeros are,
    a NaN is equal to nothing), or two default values. *)
Inductive same_scalar : MetadataValue.t → MetadataValue.t → Prop :=
  | same_scalar_default :
      same_scalar MetadataValue.default MetadataValue.default
  | same_scalar_Bool b :
      same_scalar (MetadataValue.Bool b) (MetadataValue.Bool b)
  | same_scalar_Int i :
      same_scalar (MetadataValue.Int i) (MetadataValue.Int i)
  | same_scalar_Float f g :
      SFeqb f g = true →
      same_scalar (MetadataValue.Float f) (MetadataValue.Float g)
  | same_scalar_Str s :
      same_scalar (MetadataValue.Str s) (MetadataValue.Str s).

(** What a typed accessor [as_T] owes a value [v], for the kind [T] it
    asks for and the factory [make] of that kind: it returns exactly when
    the value is of kind [T], it returns what the value was made of, and on
    any other kind it throws the type mismatch. *)
Definition accessor_contract {A} (as_T : MetadataValue.t → result A)
    (T : MetadataType.t) (make : A → MetadataValue.t)
    (v : MetadataValue.t) : Prop :=
  (returns (as_T v) ↔ MetadataValue.type v = T)
  ∧ (∀ x, as_T v = Ok x ↔ v = make x)
  ∧ (MetadataValue.type v ≠ T →
     as_T v = Throw (MetadataValue.TypeMismatch (MetadataValue.type v) T)).

(** The constraint the binding builds for an addition: the four operator
    codes of the binary entry point, and the n-ary entry point. *)
Definition built (a : Binding.Addition) : option Constraint.t :=
  match a with
  | Binding.binary 0 v => Some (Constraint.EqualTo (Binding.value v))
  | Binding.binary 1 v => Some (Constraint.LessThan (Binding.value v))
  | Binding.binary 2 v => Some (Constraint.GreaterThan (Binding.value v))
  | Binding.binary 3 v => Some (Constraint.Substring (Binding.value v))
  | Binding.binary _ _ => None
  | Binding.any_of values => Some (Constraint.AnyOf (Binding.value <$> values))
  end.

(** The scenarios of the specification: a constraint on the language of a
    chunk, the metadata of an English chunk, and a history in which a
    document is inserted, deleted and inserted again. *)
Definition lang_is_en : gmap string Constraint.t :=
  {[ "lang" := Constraint.EqualTo (MetadataValue.Str "en") ]}.

Definition english_chunk : gmap string MetadataValue.t :=
  <[ "lang" := MetadataValue.Str "en" ]> {[ "len" := MetadataValue.Int 5 ]}.

Definition reinsert_history : list NeuralDB.Call :=
  [ NeuralDB.Insert ["a"; "b"; "c"] [∅; ∅; ∅] "report" "d1" None;
    NeuralDB.DeleteDocVersion "d1" 1;
    NeuralDB.Insert ["d"; "e"] [∅; ∅] "report" "d1" None ].

(** The chunks a sequence of document calls adds, in order, and the
    version it leaves: that of its last [set_version], if any. *)
Definition added_chunks (calls : list Binding.DocumentCall) : list string :=
  flat_map (λ c, match c with
                 | Binding.add_chunk chunk => [chunk]
                 | _ => []
                 end) calls.

Definition last_version (calls : list Binding.DocumentCall) : option N :=
  foldl (λ acc c, match c with
                  | Binding.set_version version => Some version
                  | _ => acc
                  end) None calls.

(** The value an addition carries: constructed, for both entry points. *)
Definition addition_constructed (a : Binding.Addition) : Prop :=
  match a with
  | Binding.binary _ v => MetadataValue.constructed (Binding.value v)
  | Binding.any_of values =>
      Forall (λ v, MetadataValue.constructed (Binding.value v)) values
  end.

(** A value that holds a NaN. *)
Definition holds_nan (v : MetadataValue.t) : Prop :=
  MetadataValue._value v = Std.holds_float S754_nan.

(** The comparison of two finite floats of one sign, as [SFcompare] makes
    it: by exponent first, then by mantissa. *)
Definition finite_compare (e1 : Z) (m1 : positive) (e2 : Z) (m2 : positive)
    : comparison :=
  match e1 ?= e2 with
  | Lt => Lt
  | Gt => Gt
  | Eq => Pos.compare_cont Eq m1 m2
  end.

(** What a document holds for the chunk [i] under [key], if anything. *)
Definition stored_metadata (doc : Binding.Document_t) (i : nat)
    (key : string) : option MetadataValue.t :=
  m ← Binding.metadata doc !! i; m !! key.

(** The constraint set a client builds from [Constraints_new] by a list of
    additions, each under its key. *)
Definition build (additions : list (string * Binding.Addition))
    : Binding.Constraints_t :=
  foldl (λ cs ka, Binding.add cs ka.1 ka.2) Binding.Constraints_new additions.

(** ** Facts about the standard library model *)

Section StdFacts.
Import Std.

Lemma starts_with_spec p s :
  starts_with p s = true ↔ ∃ behind, s = String.append p behind.
Proof.
  revert s. induction p as [|a p IH]; intros s; simpl.
  - split; [eauto|done].
  - destruct s as [|b s].
    + split; [done|]. intros [? ?]; discriminate.
    + rewrite andb_true_iff, Ascii.eqb_eq, IH. split.
      * intros [-> [behind ->]]. eauto.
      * intros [behind [= -> ->]]. eauto.
Qed.

Lemma find_from_spec s str pos :
  find_from s str pos ≠ None ↔ occurs_in str s.
Proof.
  revert pos. induction s as [|c s IH]; intros pos; simpl.
  - destruct (starts_with str EmptyString) eqn:E.
    + split; [intros _|done].
      apply starts_with_spec in E as [behind E].
      exists EmptyString, behind. done.
    + split; [done|]. intros [before [behind E']]. exfalso.
      destruct before; [|discriminate]. simpl in E'.
      assert (starts_with str EmptyString = true) as E2
        by (apply starts_with_spec; eauto).
      congruence.
  - destruct (starts_with str (String c s)) eqn:E.
    + split; [intros _|done].
      apply starts_with_spec in E as [behind E].
      exists EmptyString, behind. done.
    + rewrite IH. split.
      * intros [before [behind ->]]. exists (String c before), behind. done.
      * intros [before [behind E']]. destruct before as [|c' before].
        -- simpl in E'.
           assert (starts_with str (String c s) = true) as E2
             by (apply starts_with_spec; eauto).
           congruence.
        -- injection E' as -> ->. exists before, behind. done.
Qed.

Lemma find_spec s str : not_npos (find s str) = true ↔ occurs_in str s.
Proof.
  rewrite <- (find_from_spec s str 0). unfold find.
  destruct (find_from s str 0); simpl; split; congruence.
Qed.

Lemma char_lt_spec c d : char_lt c d = true ↔ (N_of_ascii c < N_of_ascii d)%N.
Proof. unfold char_lt. apply N.ltb_lt. Qed.

Lemma char_lt_neither c d : char_lt c d = false → char_lt d c = false → c = d.
Proof.
  unfold char_lt. rewrite !N.ltb_ge. intros H1 H2.
  rewrite <- (ascii_N_embedding c), <- (ascii_N_embedding d).
  f_equal. lia.
Qed.

Lemma char_lt_irrefl c : char_lt c c = false.
Proof. unfold char_lt. apply N.ltb_irrefl. Qed.

Lemma S_compare_sign n m :
  (S_compare n m < 0 ↔ (n < m)%nat)
  ∧ (S_compare n m > 0 ↔ (m < n)%nat)
  ∧ (S_compare n m = 0 ↔ n = m).
Proof.
  unfold S_compare, INT_MAX, INT_MIN.
  destruct (Z.gtb_spec (Z.of_nat n - Z.of_nat m) 2147483647);
    [|destruct (Z.ltb_spec (Z.of_nat n - Z.of_nat m) (-2147483648))]; lia.
Qed.

Lemma S_compare_succ n m : S_compare (S n) (S m) = S_compare n m.
Proof. unfold S_compare. by replace (Z.of_nat (S n) - Z.of_nat (S m)) with
    (Z.of_nat n - Z.of_nat m) by lia. Qed.

(** [string_compare], one character at a time. *)
Lemma string_compare_cons c s d t :
  string_compare (String c s) (String d t) =
    if char_lt c d then -1
    else if char_lt d c then 1
    else string_compare s t.
Proof.
  unfold string_compare. simpl.
  destruct (char_lt c d); [done|]. destruct (char_lt d c); [done|].
  by rewrite S_compare_succ.
Qed.

Lemma string_compare_nil_l t :
  string_compare EmptyString t = S_compare 0 (String.length t).
Proof. done. Qed.

Lemma string_compare_nil_r s :
  string_compare s EmptyString = S_compare (String.length s) 0.
Proof. unfold string_compare. rewrite Nat.min_0_r. by destruct s. Qed.

Lemma string_lt_spec s t : string_lt s t = true ↔ lex_lt s t.
Proof.
  unfold string_lt. rewrite Z.ltb_lt.
  revert t. induction s as [|c s IH]; intros [|d t].
  - rewrite string_compare_nil_l. split; [|inversion 1].
    intros H. apply S_compare_sign in H. simpl in H. lia.
  - rewrite string_compare_nil_l. split; [constructor|intros _].
    apply S_compare_sign. simpl. lia.
  - rewrite string_compare_nil_r. split; [|inversion 1].
    intros H. apply S_compare_sign in H. lia.
  - rewrite string_compare_cons.
    destruct (char_lt c d) eqn:Hcd.
    { split; [intros _|lia]. by apply lex_lt_first, char_lt_spec. }
    destruct (char_lt d c) eqn:Hdc.
    { split; [lia|]. inversion 1 as [|? ? ? ? Hlt|? ? ? Hrest]; subst.
      - apply char_lt_spec in Hlt. congruence.
      - rewrite char_lt_irrefl in Hdc. done. }
    rewrite (char_lt_neither _ _ Hcd Hdc), IH. split.
    + by constructor.
    + inversion 1 as [|? ? ? ? Hlt|? ? ? Hrest]; subst; [|done].
      apply char_lt_spec in Hlt. rewrite char_lt_irrefl in Hlt. done.
Qed.

Lemma string_compare_antisym s t :
  string_compare s t > 0 ↔ string_compare t s < 0.
Proof.
  revert t. induction s as [|c s IH]; intros [|d t].
  - rewrite string_compare_nil_l. simpl.
    pose proof (S_compare_sign 0 0). lia.
  - rewrite string_compare_nil_l, string_compare_nil_r.
    pose proof (S_compare_sign 0 (String.length (String d t))).
    pose proof (S_compare_sign (String.length (String d t)) 0). lia.
  - rewrite string_compare_nil_l, string_compare_nil_r.
    pose proof (S_compare_sign 0 (String.length (String c s))).
    pose proof (S_compare_sign (String.length (String c s)) 0). lia.
  - rewrite !string_compare_cons.
    destruct (char_lt c d) eqn:Hcd, (char_lt d c) eqn:Hdc; try lia.
    + apply char_lt_spec in Hcd, Hdc. lia.
    + apply IH.
Qed.

Lemma string_gt_spec s t : string_gt s t = true ↔ lex_lt t s.
Proof.
  rewrite <- string_lt_spec. unfold string_gt, string_lt.
  rewrite Z.gtb_gt, Z.ltb_lt. rewrite Z.gt_lt_iff.
  pose proof (string_compare_antisym s t). lia.
Qed.

Lemma traits_compare_refl s : traits_compare s s (String.length s) = 0.
Proof. induction s as [|c s IH]; simpl; [done|]. by rewrite char_lt_irrefl. Qed.

Lemma string_eq_spec s t : string_eq s t = true ↔ s = t.
Proof.
  unfold string_eq. rewrite andb_true_iff, Nat.eqb_eq, Z.eqb_eq. split.
  - revert t. induction s as [|c s IH]; intros [|d t] [Hlen Hcmp];
      try done.
    simpl in Hlen, Hcmp.
    destruct (char_lt c d) eqn:Hcd; [done|].
    destruct (char_lt d c) eqn:Hdc; [done|].
    rewrite (char_lt_neither _ _ Hcd Hdc). f_equal. apply IH. split; lia.
  - intros ->. split; [done|apply traits_compare_refl].
Qed.

Lemma SFcompare_antisym f g : SFcompare g f = CompOpp <$> SFcompare f g.
Proof.
  destruct f as [s1|s1| |s1 m1 e1], g as [s2|s2| |s2 m2 e2]; simpl;
    try done; try (by destruct s1); try (by destruct s2);
    try (by destruct s1, s2).
  destruct s1, s2; simpl; try done;
    rewrite (Z.compare_antisym e1 e2);
    destruct (e1 ?= e2); simpl; try done;
    pose proof (Pos.compare_cont_antisym m1 m2 Eq) as H; simpl in H;
    change (PosDef.Pos.compare_cont Eq m2 m1)
      with (Pos.compare_cont Eq m2 m1);
    rewrite <- H; by destruct (Pos.compare_cont Eq m1 m2).
Qed.

Lemma SFeqb_sym f g : SFeqb f g = SFeqb g f.
Proof.
  unfold SFeqb. rewrite (SFcompare_antisym f g).
  by destruct (SFcompare f g) as [[]|].
Qed.

Lemma SFgtb_SFltb f g : SFgtb f g = SFltb g f.
Proof.
  unfold SFgtb, SFltb. rewrite (SFcompare_antisym f g).
  by destruct (SFcompare f g) as [[]|].
Qed.

Lemma string_eq_sym s t : string_eq s t = string_eq t s.
Proof.
  apply eq_true_iff_eq. rewrite !string_eq_spec. split; congruence.
Qed.

Lemma variant_eq_sym v w : variant_eq v w = variant_eq w v.
Proof.
  destruct v, w; unfold variant_eq; simpl; try done.
  - by destruct b, b0.
  - apply Z.eqb_sym.
  - apply SFeqb_sym.
  - apply string_eq_sym.
Qed.

Lemma any_of_true {A} (p : A → result bool) l :
  any_of p l = Ok true → ∃ x, x ∈ l ∧ p x = Ok true.
Proof.
  induction l as [|x l IH]; simpl; [done|].
  destruct (p x) as [[]|e] eqn:E; simpl; [|intros H|done].
  - intros _. exists x. split; [left|done].
  - destruct (IH H) as (y & Hy & Hp). exists y. split; [by right|done].
Qed.

(** With a predicate that never throws, [any_of] is [existsb]. *)
Lemma any_of_total {A} (p : A → bool) l :
  any_of (λ x, Ok (p x)) l = Ok (existsb p l).
Proof.
  induction l as [|x l IH]; simpl; [done|]. by destruct (p x).
Qed.

End StdFacts.

(** ** Metadata values *)

Section MetadataValueFacts.
Import Std MetadataValue.

Lemma hasSubstring_not_both_Str a b :
  ¬ (type a = MetadataType.Str ∧ type b = MetadataType.Str) →
  hasSubstring a b = Ok false.
Proof.
  unfold hasSubstring, type. intros H.
  repeat case_bool_decide; try done. by destruct H.
Qed.

Lemma hasSubstring_Str s o :
  hasSubstring (Str s) (Str o) = Ok (not_npos (find s o)).
Proof. done. Qed.

Lemma hasSubstring_returns a b :
  constructed a → constructed b → returns (hasSubstring a b).
Proof.
  intros Ha Hb. destruct Ha, Hb;
    try (by rewrite hasSubstring_not_both_Str;
           [eexists|unfold type; simpl; intros [? ?]; discriminate]).
  rewrite hasSubstring_Str. by eexists.
Qed.

Lemma constructed_same_type a b :
  constructed a → constructed b → type a = type b →
  index (_value a) = index (_value b).
Proof. intros Ha Hb. by destruct Ha, Hb. Qed.

Lemma equals_sym a b : equals a b = equals b a.
Proof.
  unfold equals. rewrite (variant_eq_sym (_value a)).
  do 2 f_equal. apply bool_decide_ext. split; congruence.
Qed.

(** On constructed values [equals] is the equality of the scalars held. *)
Lemma equals_same_scalar a b :
  constructed a → constructed b →
  equals a b = Ok true ↔ same_scalar a b.
Proof.
  intros Ha Hb. unfold equals.
  destruct Ha as [|x|x Hx|x Hx|x], Hb as [|y|y Hy|y Hy|y];
    unfold variant_eq; simpl;
    try (split; [by intros [=]|by inversion 1]).
  - split; [constructor|done].
  - split.
    + intros [= H]. apply Bool.eqb_prop in H as ->. constructor.
    + inversion 1. by rewrite Bool.eqb_reflx.
  - split.
    + intros [= H]. apply Z.eqb_eq in H as ->. constructor.
    + inversion 1. by rewrite Z.eqb_refl.
  - split.
    + intros [= H]. by constructor.
    + inversion 1 as [| | |? ? H'|]. by rewrite H'.
  - split.
    + intros [= H]. apply string_eq_spec in H as ->. constructor.
    + inversion 1. f_equal. by apply string_eq_spec.
Qed.

End MetadataValueFacts.

(** C2. Two values whose type tags differ are neither equal, nor below, nor
    above one another, and the first has not the second as a substring:
    [equals], [lessThan], [greaterThan] and [hasSubstring] all return
    [false], none of them throws. *)
Theorem mismatched_tags_compare_false (a b : MetadataValue.t) :
  MetadataValue.type a ≠ MetadataValue.type b →
  MetadataValue.equals a b = Ok false
  ∧ MetadataValue.lessThan a b = Ok false
  ∧ MetadataValue.greaterThan a b = Ok false
  ∧ MetadataValue.hasSubstring a b = Ok false.
Proof.
  unfold MetadataValue.type. intros Hne.
  unfold MetadataValue.equals, MetadataValue.lessThan,
    MetadataValue.greaterThan.
  rewrite (bool_decide_eq_false_2 _ Hne). simpl.
  repeat split; try done.
  apply hasSubstring_not_both_Str. unfold MetadataValue.type.
  intros [Ha Hb]. congruence.
Qed.

Lemma mismatched_tags_compare_false_witness :
  MetadataValue.type (MetadataValue.Str "5")
    ≠ MetadataValue.type (MetadataValue.Int 5)
  ∧ MetadataValue.equals (MetadataValue.Str "5") (MetadataValue.Int 5)
    = Ok false
  ∧ MetadataValue.lessThan (MetadataValue.Str "5") (MetadataValue.Int 5)
    = Ok false
  ∧ MetadataValue.greaterThan (MetadataValue.Str "5") (MetadataValue.Int 5)
    = Ok false
  ∧ MetadataValue.hasSubstring (MetadataValue.Str "5") (MetadataValue.Int 5)
    = Ok false.
Proof.
  split; [discriminate|].
  apply (mismatched_tags_compare_false
           (MetadataValue.Str "5") (MetadataValue.Int 5)).
  discriminate.
Defined.

(** C3. On a value made by the public constructors, each typed accessor
    [asBool], [asInt], [asFloat], [asStr] returns exactly when the value is
    of the kind asked for, it then returns what the value was made of, and
    on any other kind it throws the type mismatch of [checkType]; the four
    predicates [equals], [lessThan], [greaterThan] and [hasSubstring] return
    on every pair of such values. *)
Theorem accessors_throw_predicates_return (v : MetadataValue.t) :
  MetadataValue.constructed v →
  accessor_contract MetadataValue.asBool MetadataType.Bool
    MetadataValue.Bool v
  ∧ accessor_contract MetadataValue.asInt MetadataType.Int
      MetadataValue.Int v
  ∧ accessor_contract MetadataValue.asFloat MetadataType.Float
      MetadataValue.Float v
  ∧ accessor_contract MetadataValue.asStr MetadataType.Str
      MetadataValue.Str v
  ∧ ∀ w, MetadataValue.constructed w →
      returns (MetadataValue.equals v w)
      ∧ returns (MetadataValue.lessThan v w)
      ∧ returns (MetadataValue.greaterThan v w)
      ∧ returns (MetadataValue.hasSubstring v w).
Proof.
  intros Hv. split_and!.
  all: try (destruct Hv; unfold accessor_contract, returns; simpl; split_and!).
  all: try done.
  all: try (split; [by intros [? [=]]|by intros [=]]).
  all: try (split; [by intros [? [=]]|by eexists]).
  all: try (intros x; split; intros [=]; by subst).
  intros w Hw. split_and!; try by eexists.
  by apply hasSubstring_returns.
Qed.

Lemma accessors_throw_predicates_return_witness :
  MetadataValue.constructed (MetadataValue.Int 5)
  ∧ MetadataValue.asInt (MetadataValue.Int 5) = Ok 5
  ∧ MetadataValue.asStr (MetadataValue.Int 5)
    = Throw (runtime_error "cannot convert metadata type int to type str").
Proof.
  assert (MetadataValue.constructed (MetadataValue.Int 5)) as H
    by (constructor;
        unfold MetadataValue.is_int, Std.INT_MIN, Std.INT_MAX; lia).
  split; [exact H|].
  destruct (accessors_throw_predicates_return (MetadataValue.Int 5) H)
    as (_ & (_ & Hint & _) & _ & (_ & _ & Hstr) & _).
  split; [by apply Hint|]. by apply Hstr.
Defined.

(** C10. Two default-constructed values, both tagged [Nil] and both holding
    the variant's default, are equal: [equals] returns [true] on them, and
    so an [EqualTo] constraint that carries a [Nil] value matches a [Nil]
    candidate. [Nil] takes part in the comparison like any other tag. *)
Theorem nil_equals_nil (a b : MetadataValue.t) :
  MetadataValue.constructed a → MetadataValue.constructed b →
  MetadataValue.type a = MetadataType.Nil →
  MetadataValue.type b = MetadataType.Nil →
  a = MetadataValue.default ∧ b = MetadataValue.default
  ∧ MetadataValue.equals a b = Ok true
  ∧ Constraint.matches (Constraint.EqualTo a) b = Ok true.
Proof.
  intros Ha Hb. by destruct Ha, Hb.
Qed.

Lemma nil_equals_nil_witness :
  MetadataValue.equals MetadataValue.default MetadataValue.default = Ok true
  ∧ Constraint.matches (Constraint.EqualTo MetadataValue.default)
      MetadataValue.default = Ok true.
Proof.
  destruct (nil_equals_nil MetadataValue.default MetadataValue.default)
    as (_ & _ & He & Hm);
    [constructor|constructor|reflexivity|reflexivity|].
  split; [exact He|exact Hm].
Defined.

(** ** Constraints *)

(** C5. A [Substring] constraint made with the value [s] returns on every
    candidate [c], and it returns [true] exactly when both are strings and
    the constraint's string occurs in the candidate's: the constraint holds
    the needle, the candidate is the haystack. So the needle ["ab"] matches
    the candidate ["xaby"] and does not match the candidate ["ba"]. *)
Theorem substring_needle_in_candidate (s c : MetadataValue.t) :
  MetadataValue.constructed s → MetadataValue.constructed c →
  (∃ b, Constraint.matches (Constraint.Substring s) c = Ok b
        ∧ (b = true ↔
           MetadataValue.type s = MetadataType.Str
           ∧ MetadataValue.type c = MetadataType.Str
           ∧ ∃ needle hay, s = MetadataValue.Str needle
                           ∧ c = MetadataValue.Str hay
                           ∧ occurs_in needle hay))
  ∧ Constraint.matches (Constraint.Substring (MetadataValue.Str "ab"))
      (MetadataValue.Str "xaby") = Ok true
  ∧ Constraint.matches (Constraint.Substring (MetadataValue.Str "ab"))
      (MetadataValue.Str "ba") = Ok false.
Proof.
  intros Hs Hc. split; [|done]. simpl.
  destruct Hc as [| | | |hay].
  1-4: exists false; split;
    [by apply hasSubstring_not_both_Str; intros [? ?]|];
    split; [done|by intros (_ & ? & _)].
  destruct Hs as [| | | |needle].
  1-4: exists false; split;
    [by apply hasSubstring_not_both_Str; intros [? ?]|];
    split; [done|by intros (? & _)].
  rewrite hasSubstring_Str. eexists. split; [done|].
  rewrite find_spec. split.
  - intros H. split_and!; try done. by exists needle, hay.
  - intros (_ & _ & needle' & hay' & [= ->] & [= ->] & H). done.
Qed.

Lemma substring_needle_in_candidate_witness :
  ∃ b, Constraint.matches (Constraint.Substring (MetadataValue.Str "en"))
         (MetadataValue.Str "opening") = Ok b
       ∧ (b = true ↔
          MetadataValue.type (MetadataValue.Str "en") = MetadataType.Str
          ∧ MetadataValue.type (MetadataValue.Str "opening") = MetadataType.Str
          ∧ ∃ needle hay, MetadataValue.Str "en" = MetadataValue.Str needle
                          ∧ MetadataValue.Str "opening" = MetadataValue.Str hay
                          ∧ occurs_in needle hay).
Proof.
  apply (substring_needle_in_candidate
           (MetadataValue.Str "en") (MetadataValue.Str "opening"));
    constructor.
Defined.

(** C6. An [AnyOf] constraint over the values [S] returns on every
    candidate [c], and it returns [true] exactly when an [EqualTo]
    constraint on some element of [S] matches [c], that is when [c] has the
    tag of some element of [S] and holds an equal value. Over no values at
    all it returns [false] on every candidate. *)
Theorem any_of_is_some_equal_to (S : list MetadataValue.t)
    (c : MetadataValue.t) :
  returns (Constraint.matches (Constraint.AnyOf S) c)
  ∧ (Constraint.matches (Constraint.AnyOf S) c = Ok true ↔
     ∃ v, v ∈ S ∧ Constraint.matches (Constraint.EqualTo v) c = Ok true)
  ∧ (Constraint.matches (Constraint.AnyOf S) c = Ok true ↔
     ∃ v, v ∈ S ∧ MetadataValue.type c = MetadataValue.type v
          ∧ Std.variant_eq (MetadataValue._value c) (MetadataValue._value v)
            = true)
  ∧ Constraint.matches (Constraint.AnyOf []) c = Ok false.
Proof.
  assert (∀ v, MetadataValue.equals c v = Ok true ↔
               MetadataValue.type c = MetadataValue.type v
               ∧ Std.variant_eq (MetadataValue._value c)
                   (MetadataValue._value v) = true) as Heq.
  { intros v. unfold MetadataValue.equals, MetadataValue.type.
    split.
    - intros [= H]. apply andb_true_iff in H as [H1 H2].
      by apply bool_decide_eq_true in H1.
    - intros [H1 H2]. by rewrite bool_decide_eq_true_2, H2. }
  assert (Constraint.matches (Constraint.AnyOf S) c = Ok true ↔
          ∃ v, v ∈ S ∧ MetadataValue.equals c v = Ok true) as Hany.
  { simpl. split; [apply any_of_true|].
    intros (v & Hin & Hv). unfold MetadataValue.equals in *.
    rewrite any_of_total. f_equal. apply existsb_exists.
    exists v. split; [by apply list_elem_of_In|]. by injection Hv. }
  split_and!; [|..|done].
  - simpl. unfold MetadataValue.equals. rewrite any_of_total. by eexists.
  - rewrite Hany. simpl. by setoid_rewrite (equals_sym c).
  - rewrite Hany. by setoid_rewrite Heq.
Qed.

(** Equality is that of the scalars: a NaN, equal to nothing, is matched by
    no [AnyOf], not even one that lists a NaN, and the two zeros match each
    other. *)
Example any_of_float_equality :
  Constraint.matches (Constraint.AnyOf [MetadataValue.Float S754_nan])
    (MetadataValue.Float S754_nan) = Ok false
  ∧ Constraint.matches (Constraint.AnyOf [MetadataValue.Float (S754_zero true)])
      (MetadataValue.Float (S754_zero false)) = Ok true.
Proof. done. Qed.

Section OrderFacts.
Import Std MetadataValue.

Lemma bool_lt_spec a b : bool_lt a b = true ↔ a = false ∧ b = true.
Proof. destruct a, b; unfold bool_lt; simpl; split; try done; by intros []. Qed.

Lemma bool_gt_spec a b : bool_gt a b = true ↔ b = false ∧ a = true.
Proof. destruct a, b; unfold bool_gt; simpl; split; try done; by intros []. Qed.

Lemma scalar_lt_same_type a b : scalar_lt a b → type a = type b.
Proof. by destruct 1. Qed.

(** On constructed values of one kind, [operator<] of the variant is the
    order of the scalars. *)
Lemma variant_lt_scalar_lt a b :
  constructed a → constructed b → type a = type b →
  variant_lt (_value a) (_value b) = true ↔ scalar_lt a b.
Proof.
  intros Ha Hb Ht.
  destruct Ha, Hb; try discriminate Ht; unfold variant_lt; simpl.
  - split; [done|inversion 1].
  - rewrite bool_lt_spec. split.
    + intros [-> ->]. constructor.
    + by inversion 1.
  - rewrite Z.ltb_lt. split; [by constructor|by inversion 1].
  - split; [by constructor|by inversion 1].
  - rewrite string_lt_spec. split; [by constructor|by inversion 1].
Qed.

(** And [operator>] is that order read from the right. *)
Lemma variant_gt_scalar_lt a b :
  constructed a → constructed b → type a = type b →
  variant_gt (_value a) (_value b) = true ↔ scalar_lt b a.
Proof.
  intros Ha Hb Ht.
  destruct Ha, Hb; try discriminate Ht; unfold variant_gt; simpl.
  - split; [done|inversion 1].
  - rewrite bool_gt_spec. split.
    + intros [-> ->]. constructor.
    + by inversion 1.
  - rewrite Z.gtb_gt, Z.gt_lt_iff.
    split; [by constructor|by inversion 1].
  - rewrite SFgtb_SFltb. split; [by constructor|by inversion 1].
  - rewrite string_gt_spec. split; [by constructor|by inversion 1].
Qed.

End OrderFacts.

(** C7. On constructed values, a [LessThan] constraint made with [v]
    returns [true] on the candidate [c] exactly when [c] has the tag of [v]
    and the scalar [c] holds is strictly below the one [v] holds, and a
    [GreaterThan] constraint exactly when it is strictly above; strings are
    ordered lexicographically by their bytes. Both constraints return on
    every candidate, and return [false] when the tags differ. *)
Theorem ordering_constraints_compare_scalars (v c : MetadataValue.t) :
  MetadataValue.constructed v → MetadataValue.constructed c →
  returns (Constraint.matches (Constraint.LessThan v) c)
  ∧ returns (Constraint.matches (Constraint.GreaterThan v) c)
  ∧ (Constraint.matches (Constraint.LessThan v) c = Ok true ↔
     MetadataValue.type c = MetadataValue.type v ∧ scalar_lt c v)
  ∧ (Constraint.matches (Constraint.GreaterThan v) c = Ok true ↔
     MetadataValue.type c = MetadataValue.type v ∧ scalar_lt v c)
  ∧ (∀ s t, Constraint.matches (Constraint.LessThan (MetadataValue.Str t))
              (MetadataValue.Str s) = Ok true ↔ lex_lt s t)
  ∧ (∀ s t, Constraint.matches (Constraint.GreaterThan (MetadataValue.Str t))
              (MetadataValue.Str s) = Ok true ↔ lex_lt t s)
  ∧ (MetadataValue.type c ≠ MetadataValue.type v →
     Constraint.matches (Constraint.LessThan v) c = Ok false
     ∧ Constraint.matches (Constraint.GreaterThan v) c = Ok false).
Proof.
  intros Hv Hc. simpl.
  unfold MetadataValue.lessThan, MetadataValue.greaterThan.
  split_and!; try by eexists.
  - split.
    + intros [= H]. apply andb_true_iff in H as [Ht H].
      apply bool_decide_eq_true in Ht.
      split; [done|]. by apply variant_lt_scalar_lt.
    + intros [Ht H]. rewrite bool_decide_eq_true_2 by done.
      apply variant_lt_scalar_lt in H; [|done..]. by rewrite H.
  - split.
    + intros [= H]. apply andb_true_iff in H as [Ht H].
      apply bool_decide_eq_true in Ht.
      split; [done|]. by apply variant_gt_scalar_lt.
    + intros [Ht H]. rewrite bool_decide_eq_true_2 by done.
      apply variant_gt_scalar_lt in H; [|done..]. by rewrite H.
  - intros s t. simpl. unfold Std.variant_lt. simpl.
    rewrite <- string_lt_spec. split; [by intros [= ->]|by intros ->].
  - intros s t. simpl. unfold Std.variant_gt. simpl.
    rewrite <- string_gt_spec. split; [by intros [= ->]|by intros ->].
  - intros Hne. unfold MetadataValue.type in Hne.
    by rewrite (bool_decide_eq_false_2 _ Hne).
Qed.

Lemma ordering_constraints_compare_scalars_witness :
  Constraint.matches (Constraint.LessThan (MetadataValue.Int 5))
    (MetadataValue.Int 3) = Ok true
  ∧ Constraint.matches (Constraint.GreaterThan (MetadataValue.Str "ab"))
      (MetadataValue.Str "b") = Ok true.
Proof.
  assert (∀ i, -10 <= i <= 10 → MetadataValue.constructed (MetadataValue.Int i))
    as Hint
    by (intros; constructor;
        unfold MetadataValue.is_int, Std.INT_MIN, Std.INT_MAX; lia).
  split.
  - destruct (ordering_constraints_compare_scalars
                (MetadataValue.Int 5) (MetadataValue.Int 3))
      as (_ & _ & Hlt & _); [apply Hint; lia|apply Hint; lia|].
    apply Hlt. split; [reflexivity|]. constructor. lia.
  - destruct (ordering_constraints_compare_scalars
                (MetadataValue.Str "ab") (MetadataValue.Str "b"))
      as (_ & _ & _ & Hgt & _); [constructor|constructor|].
    apply Hgt. split; [reflexivity|]. constructor. apply lex_lt_first.
    reflexivity.
Defined.

(** ** Matching a metadata map against a set of constraints *)

Section MatchesFacts.

Lemma Constraint_matches_returns c v :
  Constraint.constructed c → MetadataValue.constructed v →
  returns (Constraint.matches c v).
Proof.
  destruct c as [w|w|ws|w|w]; simpl; intros Hc Hv; try by eexists.
  - by apply hasSubstring_returns.
  - unfold MetadataValue.equals. rewrite any_of_total. by eexists.
Qed.

Lemma matches_pairs_true pairs (metadata : gmap string MetadataValue.t) :
  matches_pairs pairs metadata = Ok true ↔
  Forall (λ p, ∃ v, metadata !! p.1 = Some v
                    ∧ Constraint.matches p.2 v = Ok true) pairs.
Proof.
  induction pairs as [|[key c] pairs IH]; simpl.
  - split; [constructor|done].
  - rewrite Forall_cons. simpl.
    destruct (metadata !! key) as [v|]; simpl.
    + destruct (Constraint.matches c v) as [[]|e] eqn:E; simpl.
      * rewrite IH. split; [|by intros [_ ?]].
        intros H. split; [by exists v|done].
      * split; [done|]. intros [(? & [= <-] & ?) _]. congruence.
      * split; [done|]. intros [(? & [= <-] & ?) _]. congruence.
    + split; [done|]. by intros [(? & ? & _) _].
Qed.

Lemma matches_pairs_returns pairs (metadata : gmap string MetadataValue.t) :
  Forall (λ p, Constraint.constructed p.2) pairs →
  map_Forall (λ _, MetadataValue.constructed) metadata →
  returns (matches_pairs pairs metadata).
Proof.
  intros Hpairs Hm. induction Hpairs as [|[key c] pairs Hc _ IH]; simpl.
  - by eexists.
  - destruct (metadata !! key) as [v|] eqn:E; [|by eexists].
    destruct (Constraint_matches_returns c v Hc (Hm _ _ E)) as [[] ->];
      simpl; [done|by eexists].
Qed.

Lemma matches_true (constraints : gmap string Constraint.t)
    (metadata : gmap string MetadataValue.t) :
  matches constraints metadata = Ok true ↔
  ∀ key c, constraints !! key = Some c →
           ∃ v, metadata !! key = Some v
                ∧ Constraint.matches c v = Ok true.
Proof.
  unfold matches. rewrite matches_pairs_true, Forall_forall. split.
  - intros H key c Hkey.
    apply (H (key, c)). by apply elem_of_map_to_list.
  - intros H [key c] Hin. apply H. by apply elem_of_map_to_list.
Qed.

Lemma matches_returns (constraints : gmap string Constraint.t)
    (metadata : gmap string MetadataValue.t) :
  map_Forall (λ _, Constraint.constructed) constraints →
  map_Forall (λ _, MetadataValue.constructed) metadata →
  returns (matches constraints metadata).
Proof.
  intros Hc Hm. apply matches_pairs_returns; [|done].
  apply Forall_forall. intros [key c] Hin.
  apply elem_of_map_to_list in Hin. by apply (Hc key).
Qed.

Lemma matches_missing_key (constraints : gmap string Constraint.t)
    (metadata : gmap string MetadataValue.t) key :
  map_Forall (λ _, Constraint.constructed) constraints →
  map_Forall (λ _, MetadataValue.constructed) metadata →
  is_Some (constraints !! key) → metadata !! key = None →
  matches constraints metadata = Ok false.
Proof.
  intros Hc Hm [c Hkey] Hnone.
  destruct (matches_returns _ _ Hc Hm) as [[] H]; [|done].
  destruct (proj1 (matches_true _ _) H key c Hkey) as (v & Hv & _).
  congruence.
Qed.

End MatchesFacts.

(** C1. On constraints and metadata made of constructed values, the
    top-level [matches] returns, and returns [true] exactly when every key
    of the constraints is a key of the metadata whose value the key's
    constraint matches. A constrained key that the metadata lacks makes it
    return [false], so taking a constrained key out of the metadata makes it
    return [false], whatever it returned before. *)
Theorem matches_is_conjunction_over_keys
    (constraints : gmap string Constraint.t)
    (metadata : gmap string MetadataValue.t) :
  map_Forall (λ _, Constraint.constructed) constraints →
  map_Forall (λ _, MetadataValue.constructed) metadata →
  returns (matches constraints metadata)
  ∧ (matches constraints metadata = Ok true ↔
     ∀ key c, constraints !! key = Some c →
              ∃ v, metadata !! key = Some v
                   ∧ Constraint.matches c v = Ok true)
  ∧ (∀ key, is_Some (constraints !! key) → metadata !! key = None →
            matches constraints metadata = Ok false)
  ∧ (∀ key, is_Some (constraints !! key) →
            matches constraints (delete key metadata) = Ok false).
Proof.
  intros Hc Hm. split_and!.
  - by apply matches_returns.
  - apply matches_true.
  - intros key. by apply matches_missing_key.
  - intros key Hkey. apply (matches_missing_key _ _ key); try done.
    + by apply map_Forall_delete.
    + apply lookup_delete_eq.
Qed.

Lemma matches_is_conjunction_over_keys_witness :
  matches lang_is_en english_chunk = Ok true
  ∧ matches lang_is_en (delete "lang" english_chunk) = Ok false.
Proof.
  assert (map_Forall (λ _ : string, Constraint.constructed) lang_is_en)
    as Hc by (apply map_Forall_singleton; constructor).
  assert (map_Forall (λ _ : string, MetadataValue.constructed) english_chunk)
    as Hm.
  { apply map_Forall_insert_2; [constructor|].
    apply map_Forall_singleton. constructor.
    unfold MetadataValue.is_int, Std.INT_MIN, Std.INT_MAX. lia. }
  destruct (matches_is_conjunction_over_keys _ _ Hc Hm)
    as (_ & Htrue & _ & Hdel).
  split.
  - apply Htrue. unfold lang_is_en, english_chunk. intros key c Hkey.
    apply lookup_singleton_Some in Hkey as [<- <-].
    exists (MetadataValue.Str "en"). split; [|reflexivity].
    apply lookup_insert_eq.
  - apply Hdel. exists (Constraint.EqualTo (MetadataValue.Str "en")).
    apply lookup_singleton_eq.
Defined.

(** ** The builders of the C binding *)

Section BindingFacts.
Import Binding.

Lemma push_back_loop (values : list MetadataValue_t) acc :
  foldl (λ vec v, vec ++ [value v]) acc values = acc ++ (value <$> values).
Proof.
  revert acc. induction values as [|v values IH]; intros acc; simpl.
  - by rewrite app_nil_r.
  - by rewrite IH, <- app_assoc.
Qed.

(** An addition that builds a constraint stores it under the key. *)
Lemma add_built cs key a c :
  built a = Some c → add cs key a = assign cs key c.
Proof.
  destruct a as [op v|values]; simpl.
  - destruct op as [|[[]|[]|]|]; simpl; try done; by intros [= <-].
  - intros [= <-]. unfold Constraints_add_any_of_constraint.
    by rewrite push_back_loop.
Qed.

(** An operator code outside the four known ones adds nothing. *)
Lemma add_unknown_op cs key op v :
  built (binary op v) = None → add cs key (binary op v) = cs.
Proof.
  destruct op as [|[[]|[]|]|]; simpl; try done.
Qed.

Lemma call_lengths doc c :
  length (chunks doc) = length (metadata doc) →
  length (chunks (after doc c)) = length (metadata (after doc c)).
Proof.
  intros H. unfold after. destruct c as [chunk|version|i key v]; simpl.
  - rewrite !length_app. simpl. lia.
  - done.
  - unfold Document_add_metadata.
    destruct (metadata doc !! i); simpl; [|done].
    by rewrite length_insert.
Qed.

End BindingFacts.

(** C8. Adding to a constraint set is last write wins, key by key: after an
    addition for the key [k] and then a second addition for [k] that builds
    the constraint [c2], through the binary entry point with one of the
    operator codes 0 (EqualTo), 1 (LessThan), 2 (GreaterThan), 3 (Substring)
    or through the any-of entry point, the set holds exactly [c2] under [k];
    the first addition has left no trace, the set being the one the second
    addition alone would have made, and what the set held under the other
    keys is unchanged. *)
Theorem add_constraint_last_write_wins (cs : Binding.Constraints_t)
    (k : string) (a1 a2 : Binding.Addition) (c2 : Constraint.t) :
  built a2 = Some c2 →
  let cs' := Binding.add (Binding.add cs k a1) k a2 in
  Binding.constraints cs' !! k = Some c2
  ∧ cs' = Binding.add cs k a2
  ∧ (∀ k', k' ≠ k →
           Binding.constraints cs' !! k' = Binding.constraints cs !! k').
Proof.
  intros H2 cs'. subst cs'. rewrite !(add_built _ k a2 c2 H2).
  unfold Binding.assign. simpl.
  destruct (built a1) as [c1|] eqn:H1.
  - rewrite (add_built _ k a1 c1 H1). unfold Binding.assign. simpl.
    rewrite insert_insert_eq. split_and!; [|done|].
    + apply lookup_insert_eq.
    + intros k' Hk'. by rewrite lookup_insert_ne.
  - destruct a1 as [op v|values]; [|done].
    rewrite (add_unknown_op _ _ _ _ H1). split_and!; [|done|].
    + apply lookup_insert_eq.
    + intros k' Hk'. by rewrite lookup_insert_ne.
Qed.

Lemma add_constraint_last_write_wins_witness :
  Binding.constraints
    (Binding.add
       (Binding.add Binding.Constraints_new "len"
          (Binding.binary 1 (Binding.MetadataValue_int 5)))
       "len" (Binding.any_of [Binding.MetadataValue_int 7]))
    !! "len"
  = Some (Constraint.AnyOf [MetadataValue.Int 7]).
Proof.
  apply (add_constraint_last_write_wins Binding.Constraints_new "len"
           (Binding.binary 1 (Binding.MetadataValue_int 5))
           (Binding.any_of [Binding.MetadataValue_int 7])
           (Constraint.AnyOf [MetadataValue.Int 7])).
  reflexivity.
Defined.

(** C9. A document made by [Document_new] and then changed by any sequence
    of [Document_add_chunk], [Document_set_version] and
    [Document_add_metadata] calls has as many metadata maps as chunks, after
    every call of the sequence: [Document_add_chunk] appends one chunk and
    one empty map together, and the other two calls leave both lengths as
    they are. So the arrays that [NeuralDB_insert] passes on are parallel. *)
Theorem document_arrays_stay_parallel (document doc_id : string)
    (calls : list Binding.DocumentCall) :
  (∀ n, let doc := Binding.after_all (Binding.Document_new document doc_id)
                     (take n calls) in
        length (Binding.chunks doc) = length (Binding.metadata doc))
  ∧ (∀ doc chunk,
       Binding.chunks (Binding.Document_add_chunk doc chunk)
       = Binding.chunks doc ++ [chunk]
       ∧ Binding.metadata (Binding.Document_add_chunk doc chunk)
         = Binding.metadata doc ++ [∅])
  ∧ (∀ doc version,
       Binding.chunks (Binding.Document_set_version doc version)
       = Binding.chunks doc
       ∧ Binding.metadata (Binding.Document_set_version doc version)
         = Binding.metadata doc)
  ∧ (∀ doc i key v,
       let doc' := Binding.after doc (Binding.add_metadata i key v) in
       Binding.chunks doc' = Binding.chunks doc
       ∧ length (Binding.metadata doc') = length (Binding.metadata doc)).
Proof.
  split_and!.
  - intros n. simpl. generalize (take n calls). clear n calls.
    intros calls. unfold Binding.after_all.
    assert (length (Binding.chunks (Binding.Document_new document doc_id))
            = length (Binding.metadata (Binding.Document_new document doc_id)))
      as H0 by done.
    revert H0. generalize (Binding.Document_new document doc_id).
    induction calls as [|c calls IH]; intros doc Hdoc; simpl; [done|].
    apply IH. by apply call_lengths.
  - done.
  - done.
  - intros doc i key v. unfold Binding.after. simpl.
    unfold Binding.Document_add_metadata.
    destruct (Binding.metadata doc !! i); simpl; [|done].
    by rewrite length_insert.
Qed.

(** ** The store *)

Section StoreFacts.
Import NeuralDB.

(** A call never moves the counter back, and the range an [insert]
    returns lies between the counter before and the counter after. *)
Lemma step_counter st c st' r :
  step st c = (st', r) →
  (next_id st <= next_id st')%N
  ∧ ∀ im, r = Some im →
      (next_id st <= InsertMetadata.start_id im)%N
      ∧ (InsertMetadata.end_id im <= next_id st')%N.
Proof.
  destruct c as [texts metadata document doc_id doc_version| | |]; simpl.
  - unfold insert. destruct (negb _); simpl.
    + intros [= <- <-]. split; [lia|done].
    + intros [= <- <-]. simpl. split; [lia|].
      intros im [= <-]. simpl. lia.
  - intros [= <- <-]. split; [done|done].
  - intros [= <- <-]. split; [done|done].
  - intros [= <- <-]. split; [done|done].
Qed.

(** Every range returned in a history starts at or after the counter the
    history starts from. *)
Lemma run_after_counter st cs j im :
  run st cs !! j = Some (Some im) →
  (next_id st <= InsertMetadata.start_id im)%N.
Proof.
  revert st j. induction cs as [|c cs IH]; intros st j; simpl; [done|].
  destruct (step st c) as [st' r] eqn:Hstep.
  destruct (step_counter _ _ _ _ Hstep) as [Hmono Hr].
  destruct j as [|j]; simpl.
  - intros [= ->]. by apply Hr.
  - intros Hj. specialize (IH _ _ Hj). lia.
Qed.

(** Of two ranges returned in a history, the earlier ends where the later
    starts, or before. *)
Lemma run_ordered st cs i j mi mj :
  (i < j)%nat →
  run st cs !! i = Some (Some mi) → run st cs !! j = Some (Some mj) →
  (InsertMetadata.end_id mi <= InsertMetadata.start_id mj)%N.
Proof.
  revert st i j. induction cs as [|c cs IH]; intros st i j Hij; simpl;
    [done|].
  destruct (step st c) as [st' r] eqn:Hstep.
  destruct (step_counter _ _ _ _ Hstep) as [Hmono Hr].
  destruct j as [|j]; [lia|]. destruct i as [|i]; simpl.
  - intros [= ->] Hj. apply run_after_counter in Hj.
    destruct (Hr mi eq_refl). lia.
  - apply IH. lia.
Qed.

(** The chunks of an insert carry its texts, in order. *)
Lemma make_chunks_text start texts metadata document doc_id version :
  length texts = length metadata →
  Chunk.text <$> make_chunks start texts metadata document doc_id version
  = texts.
Proof.
  revert start metadata.
  induction texts as [|text texts IH]; intros start [|m metadata] Hlen;
    simpl in *; try done.
  f_equal. apply IH. lia.
Qed.

(** Their ids are the [length texts] ids from [start] on. *)
Lemma make_chunks_ids start texts metadata document doc_id version id :
  length texts = length metadata →
  id ∈ Chunk.id <$> make_chunks start texts metadata document doc_id version
  ↔ (start <= id < start + N.of_nat (length texts))%N.
Proof.
  revert start metadata.
  induction texts as [|text texts IH]; intros start [|m metadata] Hlen;
    simpl in *; try done.
  - rewrite elem_of_nil. lia.
  - rewrite elem_of_cons, IH by lia. lia.
Qed.

End StoreFacts.

(** C4. An [insert] of [n] chunks with as many metadata maps succeeds and
    returns a range of ids whose length is [n], under the half-open
    convention [start_id <= id < end_id]; the range is contiguous, its ids
    being exactly those of the chunks the insert stored for its texts. Over
    any history of inserts and deletions of a store, the ranges returned by
    two inserts are disjoint: no id of the earlier range is in the later
    one, whatever was deleted in between. *)
Theorem insert_ranges_have_length_and_never_overlap :
  (∀ st texts metadata document doc_id doc_version,
     length texts = length metadata →
     ∃ im st' new,
       NeuralDB.insert st texts metadata document doc_id doc_version
       = Ok (im, st')
       ∧ InsertMetadata.range_length im = N.of_nat (length texts)
       ∧ NeuralDB.chunks st' = NeuralDB.chunks st ++ new
       ∧ Chunk.text <$> new = texts
       ∧ ∀ id, InsertMetadata.contains im id ↔ id ∈ Chunk.id <$> new)
  ∧ (∀ calls i j mi mj,
       (i < j)%nat →
       NeuralDB.run NeuralDB.empty calls !! i = Some (Some mi) →
       NeuralDB.run NeuralDB.empty calls !! j = Some (Some mj) →
       ∀ id, InsertMetadata.contains mi id →
             ¬ InsertMetadata.contains mj id).
Proof.
  split.
  - intros st texts metadata document doc_id doc_version Hlen.
    unfold NeuralDB.insert.
    rewrite (proj2 (Nat.eqb_eq _ _) Hlen). simpl.
    eexists _, _, _. split; [done|].
    unfold InsertMetadata.range_length, InsertMetadata.contains. simpl.
    split_and!; [lia|done|by apply make_chunks_text|].
    intros id. by rewrite make_chunks_ids.
  - intros calls i j mi mj Hij Hi Hj id.
    pose proof (run_ordered _ _ _ _ _ _ Hij Hi Hj).
    unfold InsertMetadata.contains. lia.
Qed.

Lemma insert_ranges_have_length_and_never_overlap_witness :
  NeuralDB.run NeuralDB.empty reinsert_history !! 0%nat
  = Some (Some (InsertMetadata.mk "d1" 1 0 3))
  ∧ NeuralDB.run NeuralDB.empty reinsert_history !! 2%nat
    = Some (Some (InsertMetadata.mk "d1" 1 3 5))
  ∧ InsertMetadata.contains (InsertMetadata.mk "d1" 1 0 3) 2
  ∧ ¬ InsertMetadata.contains (InsertMetadata.mk "d1" 1 3 5) 2.
Proof.
  assert (NeuralDB.run NeuralDB.empty reinsert_history !! 0%nat
          = Some (Some (InsertMetadata.mk "d1" 1 0 3))) as H0
    by reflexivity.
  assert (NeuralDB.run NeuralDB.empty reinsert_history !! 2%nat
          = Some (Some (InsertMetadata.mk "d1" 1 3 5))) as H2
    by reflexivity.
  assert (InsertMetadata.contains (InsertMetadata.mk "d1" 1 0 3) 2) as Hin
    by (unfold InsertMetadata.contains; simpl; lia).
  split_and!; try done.
  destruct insert_ranges_have_length_and_never_overlap as [_ Hdisjoint].
  apply (Hdisjoint reinsert_history 0%nat 2%nat _ _
           (Nat.lt_0_succ 1) H0 H2 2%N Hin).
Defined.

(** ** More of the code: laws of the comparisons *)

Section FloatFacts.
Import Std.

Lemma finite_compare_spec e1 m1 e2 m2 :
  match finite_compare e1 m1 e2 m2 with
  | Lt => e1 < e2 ∨ (e1 = e2 ∧ (m1 < m2)%positive)
  | Eq => e1 = e2 ∧ m1 = m2
  | Gt => e2 < e1 ∨ (e1 = e2 ∧ (m2 < m1)%positive)
  end.
Proof.
  unfold finite_compare. destruct (Z.compare_spec e1 e2); auto.
  change (Pos.compare_cont Eq m1 m2) with (Pos.compare m1 m2).
  destruct (Pos.compare_spec m1 m2); auto.
Qed.

Lemma SFcompare_finite s1 m1 e1 s2 m2 e2 :
  SFcompare (S754_finite s1 m1 e1) (S754_finite s2 m2 e2) =
  Some match s1, s2 with
       | true, false => Lt
       | false, true => Gt
       | false, false => finite_compare e1 m1 e2 m2
       | true, true => CompOpp (finite_compare e1 m1 e2 m2)
       end.
Proof.
  destruct s1, s2; simpl; unfold finite_compare; by destruct (e1 ?= e2).
Qed.

Lemma SFcompare_trans f g h c :
  SFcompare f g = Some c → SFcompare g h = Some c → SFcompare f h = Some c.
Proof.
  destruct f as [s1|s1| |s1 m1 e1], g as [s2|s2| |s2 m2 e2],
    h as [s3|s3| |s3 m3 e3]; rewrite ?SFcompare_finite; simpl;
    try discriminate; try congruence;
    try (destruct s1; congruence); try (destruct s2; congruence);
    try (destruct s3; congruence);
    try (destruct s1, s2; congruence); try (destruct s1, s3; congruence);
    try (destruct s2, s3; congruence);
    try (destruct s1, s2, s3; congruence).
  pose proof (finite_compare_spec e1 m1 e2 m2).
  pose proof (finite_compare_spec e2 m2 e3 m3).
  pose proof (finite_compare_spec e1 m1 e3 m3).
  destruct s1, s2, s3; try congruence;
    destruct (finite_compare e1 m1 e2 m2), (finite_compare e2 m2 e3 m3),
      (finite_compare e1 m1 e3 m3), c;
    simpl; intros; try congruence; exfalso; lia.
Qed.

Lemma SFcompare_refl f : f ≠ S754_nan → SFcompare f f = Some Eq.
Proof.
  destruct f as [s|s| |s m e]; try congruence; intros _;
    try (by destruct s).
  rewrite SFcompare_finite. pose proof (finite_compare_spec e m e m).
  destruct s, (finite_compare e m e m); simpl; try done; exfalso; lia.
Qed.

Lemma SFcompare_None f g :
  SFcompare f g = None ↔ f = S754_nan ∨ g = S754_nan.
Proof.
  destruct f as [s1|s1| |s1 m1 e1], g as [s2|s2| |s2 m2 e2];
    rewrite ?SFcompare_finite; simpl;
    split; try discriminate; try tauto; try (intros [|]; discriminate).
Qed.

Lemma SFltb_irrefl f : SFltb f f = false.
Proof.
  unfold SFltb. destruct f as [s|s| |s m e]; try done; try by destruct s.
  rewrite SFcompare_refl; done.
Qed.

Lemma SFltb_trans f g h :
  SFltb f g = true → SFltb g h = true → SFltb f h = true.
Proof.
  unfold SFltb. intros Hfg Hgh.
  destruct (SFcompare f g) as [[]|] eqn:E1; try done.
  destruct (SFcompare g h) as [[]|] eqn:E2; try done.
  by rewrite (SFcompare_trans _ _ _ _ E1 E2).
Qed.

Lemma SFeqb_trans f g h :
  SFeqb f g = true → SFeqb g h = true → SFeqb f h = true.
Proof.
  unfold SFeqb. intros Hfg Hgh.
  destruct (SFcompare f g) as [[]|] eqn:E1; try done.
  destruct (SFcompare g h) as [[]|] eqn:E2; try done.
  by rewrite (SFcompare_trans _ _ _ _ E1 E2).
Qed.

Lemma SFeqb_refl f : SFeqb f f = true ↔ f ≠ S754_nan.
Proof.
  unfold SFeqb. split.
  - by intros H ->.
  - intros H. by rewrite SFcompare_refl.
Qed.

End FloatFacts.

Section StringOrderFacts.
Import Std.

Lemma lex_lt_irrefl s : ¬ lex_lt s s.
Proof.
  induction s as [|c s IH]; inversion 1 as [|? ? ? ? Hlt|]; subst; [lia|done].
Qed.

Lemma lex_lt_trans s t u : lex_lt s t → lex_lt t u → lex_lt s u.
Proof.
  intros Hst. revert u. induction Hst as [c t|c d s t Hcd|c s t Hst IH];
    intros u Htu.
  - inversion Htu; constructor.
  - inversion Htu as [|? e ? ? Hde|]; subst.
    + apply lex_lt_first. lia.
    + by apply lex_lt_first.
  - inversion Htu as [|? e ? ? Hce|]; subst.
    + by apply lex_lt_first.
    + apply lex_lt_rest. by apply IH.
Qed.

Lemma string_compare_eq s t : string_compare s t = 0 ↔ s = t.
Proof.
  revert t. induction s as [|c s IH]; intros [|d t].
  - done.
  - rewrite string_compare_nil_l. split; [|done].
    intros H. apply S_compare_sign in H. done.
  - rewrite string_compare_nil_r. split; [|done].
    intros H. apply S_compare_sign in H. done.
  - rewrite string_compare_cons.
    destruct (char_lt c d) eqn:Hcd.
    { split; [done|]. intros [= -> _]. by rewrite char_lt_irrefl in Hcd. }
    destruct (char_lt d c) eqn:Hdc.
    { split; [done|]. intros [= -> _]. by rewrite char_lt_irrefl in Hdc. }
    rewrite (char_lt_neither _ _ Hcd Hdc), IH. split; congruence.
Qed.

(** Exactly one of [==], [<] and [>] holds of two strings. *)
Lemma string_trichotomy s t :
  (string_eq s t = true ∧ string_lt s t = false ∧ string_gt s t = false)
  ∨ (string_eq s t = false ∧ string_lt s t = true ∧ string_gt s t = false)
  ∨ (string_eq s t = false ∧ string_lt s t = false ∧ string_gt s t = true).
Proof.
  pose proof (string_compare_eq s t) as Heq.
  pose proof (string_eq_spec s t) as Heq'.
  unfold string_lt, string_gt.
  destruct (string_eq s t).
  - left. assert (string_compare s t = 0) as -> by (apply Heq, Heq'; done).
    done.
  - assert (string_compare s t ≠ 0) as Hne.
    { intros H. apply Heq in H. apply Heq' in H. done. }
    destruct (Z.ltb_spec (string_compare s t) 0).
    + right; left. split_and!; [done..|].
      rewrite Z.gtb_ltb. apply Z.ltb_ge. lia.
    + right; right. split_and!; [done..|].
      rewrite Z.gtb_ltb. apply Z.ltb_lt. lia.
Qed.

End StringOrderFacts.

Section VariantOrderFacts.
Import Std MetadataValue.

Lemma variant_lt_gt v w : variant_lt v w = variant_gt w v.
Proof.
  destruct v as [a|a|a|a], w as [b|b|b|b]; unfold variant_lt, variant_gt;
    simpl; try done.
  - unfold bool_lt, bool_gt. by rewrite Z.gtb_ltb.
  - by rewrite Z.gtb_ltb.
  - by rewrite SFgtb_SFltb.
  - apply eq_true_iff_eq. by rewrite string_lt_spec, string_gt_spec.
Qed.

Lemma variant_lt_irrefl v : variant_lt v v = false.
Proof.
  destruct v as [a|a|a|a]; unfold variant_lt; simpl.
  - by destruct a.
  - apply Z.ltb_irrefl.
  - apply SFltb_irrefl.
  - apply not_true_is_false. rewrite string_lt_spec. apply lex_lt_irrefl.
Qed.

Lemma variant_lt_trans u v w :
  variant_lt u v = true → variant_lt v w = true → variant_lt u w = true.
Proof.
  destruct u as [a|a|a|a], v as [b|b|b|b], w as [c|c|c|c];
    unfold variant_lt; simpl; try done.
  - by destruct a, b, c.
  - rewrite !Z.ltb_lt. lia.
  - apply SFltb_trans.
  - rewrite !string_lt_spec. apply lex_lt_trans.
Qed.

Lemma variant_eq_trans u v w :
  variant_eq u v = true → variant_eq v w = true → variant_eq u w = true.
Proof.
  destruct u as [a|a|a|a], v as [b|b|b|b], w as [c|c|c|c];
    unfold variant_eq; simpl; try done.
  - by destruct a, b, c.
  - rewrite !Z.eqb_eq. congruence.
  - apply SFeqb_trans.
  - rewrite !string_eq_spec. congruence.
Qed.

Lemma variant_eq_refl v :
  variant_eq v v = true ↔ v ≠ holds_float S754_nan.
Proof.
  destruct v as [a|a|a|a]; unfold variant_eq; simpl.
  - split; [done|]. by destruct a.
  - split; [done|]. intros _. apply Z.eqb_refl.
  - rewrite SFeqb_refl. split; congruence.
  - split; [done|]. intros _. by apply string_eq_spec.
Qed.

(** On two floats of which none is a NaN, exactly one of [==], [<], [>]. *)
Lemma float_trichotomy f g :
  f ≠ S754_nan → g ≠ S754_nan →
  (SFeqb f g = true ∧ SFltb f g = false ∧ SFgtb f g = false)
  ∨ (SFeqb f g = false ∧ SFltb f g = true ∧ SFgtb f g = false)
  ∨ (SFeqb f g = false ∧ SFltb f g = false ∧ SFgtb f g = true).
Proof.
  intros Hf Hg. unfold SFeqb, SFltb, SFgtb.
  destruct (SFcompare f g) as [[]|] eqn:E; auto.
  apply SFcompare_None in E. tauto.
Qed.

Lemma float_nan_unordered f g :
  f = S754_nan ∨ g = S754_nan →
  SFeqb f g = false ∧ SFltb f g = false ∧ SFgtb f g = false.
Proof.
  intros H. apply SFcompare_None in H. unfold SFeqb, SFltb, SFgtb.
  by rewrite H.
Qed.

End VariantOrderFacts.

(** X1. [lessThan] and [greaterThan] are each other's mirror image on every
    pair of values: [a.lessThan(b)] is [b.greaterThan(a)]. So a [LessThan]
    constraint made with [a] answers on the candidate [b] what a
    [GreaterThan] constraint made with [b] answers on the candidate [a]. *)
Theorem lessThan_mirrors_greaterThan (a b : MetadataValue.t) :
  MetadataValue.lessThan a b = MetadataValue.greaterThan b a
  ∧ Constraint.matches (Constraint.LessThan a) b
    = Constraint.matches (Constraint.GreaterThan b) a.
Proof.
  assert (∀ x y, MetadataValue.lessThan x y = MetadataValue.greaterThan y x)
    as H.
  { intros x y. unfold MetadataValue.lessThan, MetadataValue.greaterThan.
    rewrite variant_lt_gt. do 2 f_equal.
    apply bool_decide_ext. split; congruence. }
  split; [apply H|]. simpl. apply H.
Qed.

(** X2. [lessThan] is a strict order on all values: no value is below
    itself, below is transitive, and two values are never below each
    other. *)
Theorem lessThan_strict_order (a b c : MetadataValue.t) :
  MetadataValue.lessThan a a = Ok false
  ∧ (MetadataValue.lessThan a b = Ok true →
     MetadataValue.lessThan b c = Ok true →
     MetadataValue.lessThan a c = Ok true)
  ∧ (MetadataValue.lessThan a b = Ok true →
     MetadataValue.lessThan b a = Ok false).
Proof.
  assert (∀ x y z, MetadataValue.lessThan x y = Ok true →
                   MetadataValue.lessThan y z = Ok true →
                   MetadataValue.lessThan x z = Ok true) as Htrans.
  { unfold MetadataValue.lessThan. intros x y z [= Hxy] [= Hyz].
    apply andb_true_iff in Hxy as [Txy Vxy], Hyz as [Tyz Vyz].
    apply bool_decide_eq_true in Txy, Tyz.
    rewrite (variant_lt_trans _ _ _ Vxy Vyz).
    rewrite bool_decide_eq_true_2; [done|congruence]. }
  assert (∀ x, MetadataValue.lessThan x x = Ok false) as Hirr.
  { intros x. unfold MetadataValue.lessThan.
    by rewrite variant_lt_irrefl, andb_false_r. }
  split_and!; [apply Hirr|apply Htrans|].
  intros Hab. unfold MetadataValue.lessThan at 1.
  destruct (_ && _) eqn:E; [|done].
  assert (MetadataValue.lessThan b a = Ok true) as Hba
    by (unfold MetadataValue.lessThan; by rewrite E).
  pose proof (Htrans _ _ _ Hab Hba) as Haa. by rewrite Hirr in Haa.
Qed.

Lemma lessThan_strict_order_witness :
  MetadataValue.lessThan (MetadataValue.Str "a") (MetadataValue.Str "b")
  = Ok true
  ∧ MetadataValue.lessThan (MetadataValue.Str "a") (MetadataValue.Str "b")
    = Ok true
  ∧ MetadataValue.lessThan (MetadataValue.Str "a") (MetadataValue.Str "c")
    = Ok true
  ∧ MetadataValue.lessThan (MetadataValue.Str "b") (MetadataValue.Str "a")
    = Ok false.
Proof.
  destruct (lessThan_strict_order (MetadataValue.Str "a")
              (MetadataValue.Str "b") (MetadataValue.Str "c"))
    as (_ & Htrans & Hasym).
  split_and!; [reflexivity|reflexivity| |].
  - apply Htrans; reflexivity.
  - apply Hasym; reflexivity.
Defined.

(** X3. [equals] is symmetric and transitive on all values, and a value
    equals itself unless it holds a NaN. *)
Theorem equals_partial_equivalence (a b c : MetadataValue.t) :
  MetadataValue.equals a b = MetadataValue.equals b a
  ∧ (MetadataValue.equals a b = Ok true →
     MetadataValue.equals b c = Ok true →
     MetadataValue.equals a c = Ok true)
  ∧ (MetadataValue.equals a a = Ok true ↔ ¬ holds_nan a).
Proof.
  split_and!.
  - apply equals_sym.
  - unfold MetadataValue.equals. intros [= Hab] [= Hbc].
    apply andb_true_iff in Hab as [Tab Vab], Hbc as [Tbc Vbc].
    apply bool_decide_eq_true in Tab, Tbc.
    rewrite (variant_eq_trans _ _ _ Vab Vbc).
    rewrite bool_decide_eq_true_2; [done|congruence].
  - unfold MetadataValue.equals, holds_nan.
    rewrite bool_decide_eq_true_2 by done. simpl.
    rewrite <- variant_eq_refl. split; [by intros [= ->]|by intros ->].
Qed.

Lemma equals_partial_equivalence_witness :
  MetadataValue.equals (MetadataValue.Float (S754_zero true))
    (MetadataValue.Float (S754_zero false)) = Ok true
  ∧ MetadataValue.equals (MetadataValue.Float (S754_zero true))
      (MetadataValue.Float (S754_zero true)) = Ok true.
Proof.
  destruct (equals_partial_equivalence (MetadataValue.Float (S754_zero true))
              (MetadataValue.Float (S754_zero false))
              (MetadataValue.Float (S754_zero true)))
    as (_ & Htrans & _).
  split; [reflexivity|]. apply Htrans; reflexivity.
Defined.

(** X4. Of two constructed values with the same tag, exactly one of
    [equals], [lessThan] and [greaterThan] returns [true] when none holds a
    NaN, and none of the three does when one holds a NaN. *)
Theorem comparisons_total_except_nan (a b : MetadataValue.t) :
  MetadataValue.constructed a → MetadataValue.constructed b →
  MetadataValue.type a = MetadataValue.type b →
  let outcome := (MetadataValue.equals a b, MetadataValue.lessThan a b,
                  MetadataValue.greaterThan a b) in
  (¬ holds_nan a ∧ ¬ holds_nan b →
     outcome = (Ok true, Ok false, Ok false)
     ∨ outcome = (Ok false, Ok true, Ok false)
     ∨ outcome = (Ok false, Ok false, Ok true))
  ∧ (holds_nan a ∨ holds_nan b →
     outcome = (Ok false, Ok false, Ok false)).
Proof.
  intros Ha Hb Ht outcome. subst outcome.
  unfold MetadataValue.equals, MetadataValue.lessThan,
    MetadataValue.greaterThan, holds_nan.
  rewrite bool_decide_eq_true_2 by done. simpl.
  destruct Ha as [|x|x Hx|x Hx|x], Hb as [|y|y Hy|y Hy|y];
    try discriminate Ht; unfold Std.variant_eq, Std.variant_lt,
      Std.variant_gt; simpl.
  - split; [auto|]. by intros [|].
  - split; [|by intros [|]]. intros _. by destruct x, y; auto.
  - split; [|by intros [|]]. intros _.
    destruct (Z.compare_spec x y) as [->|Hlt|Hgt].
    + left. by rewrite Z.eqb_refl, Z.ltb_irrefl, Z.gtb_ltb, Z.ltb_irrefl.
    + right; left.
      rewrite (proj2 (Z.eqb_neq _ _)), (proj2 (Z.ltb_lt _ _)), Z.gtb_ltb,
        (proj2 (Z.ltb_ge _ _)); [done|lia..].
    + right; right.
      rewrite (proj2 (Z.eqb_neq _ _)), (proj2 (Z.ltb_ge _ _)), Z.gtb_ltb,
        (proj2 (Z.ltb_lt _ _)); [done|lia..].
  - split.
    + intros [Hnx Hny].
      destruct (float_trichotomy x y)
        as [(-> & -> & ->)|[(-> & -> & ->)|(-> & -> & ->)]];
        auto; congruence.
    + intros Hnan.
      destruct (float_nan_unordered x y) as (-> & -> & ->); [|done].
      destruct Hnan as [[=]|[=]]; auto.
  - split; [|by intros [|]]. intros _.
    destruct (string_trichotomy x y)
      as [(-> & -> & ->)|[(-> & -> & ->)|(-> & -> & ->)]]; auto.
Qed.

Lemma comparisons_total_except_nan_witness :
  (MetadataValue.equals (MetadataValue.Str "ab") (MetadataValue.Str "b"),
   MetadataValue.lessThan (MetadataValue.Str "ab") (MetadataValue.Str "b"),
   MetadataValue.greaterThan (MetadataValue.Str "ab") (MetadataValue.Str "b"))
  = (Ok false, Ok true, Ok false)
  ∧ (MetadataValue.equals (MetadataValue.Float S754_nan)
       (MetadataValue.Float S754_nan),
     MetadataValue.lessThan (MetadataValue.Float S754_nan)
       (MetadataValue.Float S754_nan),
     MetadataValue.greaterThan (MetadataValue.Float S754_nan)
       (MetadataValue.Float S754_nan))
    = (Ok false, Ok false, Ok false).
Proof.
  split.
  - reflexivity.
  - apply (comparisons_total_except_nan (MetadataValue.Float S754_nan)
             (MetadataValue.Float S754_nan));
      [by constructor|by constructor|reflexivity|by left].
Defined.

(** ** More of the code: substrings and value sets *)

Section SubstringFacts.
Import Std MetadataValue.

Lemma append_assoc_string s t u :
  String.append (String.append s t) u = String.append s (String.append t u).
Proof.
  induction s as [|c s IH]; [done|].
  change (String c (String.append (String.append s t) u)
          = String c (String.append s (String.append t u))).
  by f_equal.
Qed.

Lemma append_nil_r_string s : String.append s EmptyString = s.
Proof.
  induction s as [|c s IH]; [done|].
  change (String c (String.append s EmptyString) = String c s). by f_equal.
Qed.

Lemma length_append_string s t :
  String.length (String.append s t) = (String.length s + String.length t)%nat.
Proof.
  induction s as [|c s IH]; [done|].
  change (S (String.length (String.append s t))
          = S (String.length s + String.length t)). by f_equal.
Qed.

Lemma occurs_in_nil hay : occurs_in EmptyString hay.
Proof. by exists EmptyString, hay. Qed.

Lemma occurs_in_refl s : occurs_in s s.
Proof.
  exists EmptyString, EmptyString.
  change (s = String.append s EmptyString). by rewrite append_nil_r_string.
Qed.

Lemma occurs_in_trans a b c : occurs_in a b → occurs_in b c → occurs_in a c.
Proof.
  intros (p1 & s1 & ->) (p2 & s2 & ->).
  exists (String.append p2 p1), (String.append s1 s2).
  by rewrite !append_assoc_string.
Qed.

Lemma occurs_in_length needle hay :
  occurs_in needle hay → (String.length needle <= String.length hay)%nat.
Proof. intros (p & s & ->). rewrite !length_append_string. lia. Qed.

(** [hasSubstring] returns [true] only on two strings, the second of which
    occurs in the first. *)
Lemma hasSubstring_true a b :
  hasSubstring a b = Ok true ↔
  ∃ s o, a = Str s ∧ b = Str o ∧ occurs_in o s.
Proof.
  split.
  - destruct a as [ta va], b as [tb vb]. unfold hasSubstring. simpl.
    repeat case_bool_decide; try done. subst.
    destruct va as [| | |s]; try done. destruct vb as [| | |o]; try done.
    simpl. intros [= H]. apply find_spec in H. by exists s, o.
  - intros (s & o & -> & -> & H). rewrite hasSubstring_Str.
    f_equal. by apply find_spec.
Qed.

End SubstringFacts.

(** X5. A [Substring] constraint with the empty string as its needle
    matches every string candidate, the empty one included, and a
    [Substring] constraint matches the very string it was made with. *)
Theorem substring_empty_needle_and_self (hay : string) :
  Constraint.matches (Constraint.Substring (MetadataValue.Str ""))
    (MetadataValue.Str hay) = Ok true
  ∧ Constraint.matches (Constraint.Substring (MetadataValue.Str hay))
      (MetadataValue.Str hay) = Ok true.
Proof.
  simpl. rewrite !hasSubstring_Str. split; f_equal; apply find_spec.
  - apply occurs_in_nil.
  - apply occurs_in_refl.
Qed.

(** X6. [Substring] matches compose: when the constraint made with [b]
    matches the candidate [c] and the constraint made with [a] matches
    [b] taken as a candidate, the constraint made with [a] matches [c]. And
    a needle that matches is never longer than the candidate. *)
Theorem substring_matches_compose (a b c : MetadataValue.t) :
  Constraint.matches (Constraint.Substring b) c = Ok true →
  Constraint.matches (Constraint.Substring a) b = Ok true →
  Constraint.matches (Constraint.Substring a) c = Ok true
  ∧ ∃ needle hay, a = MetadataValue.Str needle ∧ c = MetadataValue.Str hay
                  ∧ (String.length needle <= String.length hay)%nat.
Proof.
  simpl. rewrite !hasSubstring_true.
  intros (sc & sb & -> & -> & Hbc) (sb' & sa & [= <-] & -> & Hab).
  pose proof (occurs_in_trans _ _ _ Hab Hbc) as Hac. split.
  - by exists sc, sa.
  - exists sa, sc. split_and!; [done..|]. by apply occurs_in_length.
Qed.

Lemma substring_matches_compose_witness :
  Constraint.matches (Constraint.Substring (MetadataValue.Str "b"))
    (MetadataValue.Str "xaby") = Ok true
  ∧ ∃ needle hay, MetadataValue.Str "b" = MetadataValue.Str needle
                  ∧ MetadataValue.Str "xaby" = MetadataValue.Str hay
                  ∧ (String.length needle <= String.length hay)%nat.
Proof.
  apply (substring_matches_compose (MetadataValue.Str "b")
           (MetadataValue.Str "ab") (MetadataValue.Str "xaby"));
    reflexivity.
Defined.

(** X7. An [AnyOf] constraint over two lists put end to end matches exactly
    when the constraint over one of the lists does, and over a single value
    it answers what the [EqualTo] constraint on that value answers. *)
Theorem any_of_append_and_singleton (S1 S2 : list MetadataValue.t)
    (v c : MetadataValue.t) :
  (∃ b1 b2,
     Constraint.matches (Constraint.AnyOf S1) c = Ok b1
     ∧ Constraint.matches (Constraint.AnyOf S2) c = Ok b2
     ∧ Constraint.matches (Constraint.AnyOf (S1 ++ S2)) c = Ok (b1 || b2))
  ∧ Constraint.matches (Constraint.AnyOf [v]) c
    = Constraint.matches (Constraint.EqualTo v) c.
Proof.
  simpl. unfold MetadataValue.equals. split.
  - rewrite !any_of_total. eexists _, _. split_and!; [done..|].
    by rewrite existsb_app.
  - simpl. rewrite (variant_eq_sym (MetadataValue._value c)).
    rewrite (bool_decide_ext (MetadataValue._type c = MetadataValue._type v)
               (MetadataValue._type v = MetadataValue._type c))
      by (split; congruence).
    by destruct (_ && _).
Qed.

(** X8. What an [AnyOf] constraint answers depends only on which values its
    list contains: neither their order nor their repetition matters. *)
Theorem any_of_depends_on_elements (S S' : list MetadataValue.t)
    (c : MetadataValue.t) :
  (∀ v, v ∈ S ↔ v ∈ S') →
  Constraint.matches (Constraint.AnyOf S) c
  = Constraint.matches (Constraint.AnyOf S') c.
Proof.
  intros H. simpl. unfold MetadataValue.equals. rewrite !any_of_total.
  f_equal. apply eq_true_iff_eq. rewrite !existsb_exists.
  split; intros (v & Hin & Hv); exists v; split; try done;
    apply list_elem_of_In; apply H; by apply list_elem_of_In.
Qed.

Lemma any_of_depends_on_elements_witness :
  Constraint.matches
    (Constraint.AnyOf [MetadataValue.Int 1; MetadataValue.Int 2])
    (MetadataValue.Int 2)
  = Constraint.matches
      (Constraint.AnyOf [MetadataValue.Int 2; MetadataValue.Int 1;
                         MetadataValue.Int 2])
      (MetadataValue.Int 2).
Proof.
  apply (any_of_depends_on_elements
           [MetadataValue.Int 1; MetadataValue.Int 2]
           [MetadataValue.Int 2; MetadataValue.Int 1; MetadataValue.Int 2]).
  intros v. rewrite !elem_of_cons, elem_of_nil. tauto.
Defined.

(** ** More of the code: the document builder *)

Section DocumentFacts.
Import Binding.

Lemma after_all_parallel doc calls :
  length (chunks doc) = length (metadata doc) →
  length (chunks (after_all doc calls))
  = length (metadata (after_all doc calls)).
Proof.
  unfold after_all. revert doc.
  induction calls as [|c calls IH]; intros doc Hdoc; simpl; [done|].
  apply IH. by apply call_lengths.
Qed.

(** One call adds its chunk, if it is an [add_chunk], sets the version, if
    it is a [set_version], and leaves the names alone. *)
Lemma after_fields doc c :
  chunks (after doc c) = chunks doc ++ added_chunks [c]
  ∧ document (after doc c) = document doc
  ∧ doc_id (after doc c) = doc_id doc
  ∧ doc_version (after doc c)
    = match c with
      | set_version version => Some version
      | _ => doc_version doc
      end.
Proof.
  unfold after. destruct c as [chunk|version|i key v]; simpl.
  - done.
  - by rewrite app_nil_r.
  - unfold Document_add_metadata.
    destruct (metadata doc !! i); simpl; by rewrite app_nil_r.
Qed.

Lemma after_all_fields doc calls :
  chunks (after_all doc calls) = chunks doc ++ added_chunks calls
  ∧ document (after_all doc calls) = document doc
  ∧ doc_id (after_all doc calls) = doc_id doc
  ∧ doc_version (after_all doc calls)
    = foldl (λ acc c, match c with
                      | set_version version => Some version
                      | _ => acc
                      end) (doc_version doc) calls.
Proof.
  unfold after_all. revert doc.
  induction calls as [|c calls IH]; intros doc; simpl.
  - by rewrite app_nil_r.
  - destruct (IH (after doc c)) as (-> & -> & -> & ->).
    destruct (after_fields doc c) as (-> & -> & -> & ->).
    unfold added_chunks. simpl. rewrite app_nil_r, <- app_assoc.
    by split_and!.
Qed.

End DocumentFacts.

(** X9. A document made by [Document_new] and changed by any sequence of
    calls holds the chunks of its [Document_add_chunk] calls, in the order of
    the calls, with one metadata map for each; it keeps the document name
    and the document id it was made with, and its version is that of the
    last [Document_set_version] call, or none. A call that throws leaves
    no trace. *)
Theorem document_holds_what_was_added (document doc_id : string)
    (calls : list Binding.DocumentCall) :
  let doc := Binding.after_all (Binding.Document_new document doc_id) calls in
  Binding.chunks doc = added_chunks calls
  ∧ length (Binding.metadata doc) = length (added_chunks calls)
  ∧ Binding.document doc = document
  ∧ Binding.doc_id doc = doc_id
  ∧ Binding.doc_version doc = last_version calls.
Proof.
  intros doc. subst doc.
  destruct (after_all_fields (Binding.Document_new document doc_id) calls)
    as (Hc & Hd & Hi & Hv).
  simpl in Hc. split_and!; try done.
  rewrite <- Hc. symmetry. by apply after_all_parallel.
Qed.

(** X10. On a document made by [Document_new] and any sequence of calls,
    [Document_add_metadata] returns exactly for the indices of the chunks
    added so far, and for any other index it throws [std::out_of_range]: on
    a document without chunks it throws for every index. *)
Theorem add_metadata_needs_added_chunk (document doc_id : string)
    (calls : list Binding.DocumentCall) (i : nat) (key : string)
    (v : Binding.MetadataValue_t) :
  let doc := Binding.after_all (Binding.Document_new document doc_id) calls in
  (returns (Binding.Document_add_metadata doc i key v)
   ↔ (i < length (added_chunks calls))%nat)
  ∧ (Binding.Document_add_metadata doc i key v = Throw out_of_range
     ↔ (length (added_chunks calls) <= i)%nat)
  ∧ Binding.Document_add_metadata (Binding.Document_new document doc_id)
      i key v = Throw out_of_range.
Proof.
  intros doc.
  assert (length (Binding.metadata doc) = length (added_chunks calls)) as Hlen.
  { subst doc.
    destruct (after_all_fields (Binding.Document_new document doc_id) calls)
      as (Hc & _).
    simpl in Hc. rewrite <- Hc. symmetry. by apply after_all_parallel. }
  unfold Binding.Document_add_metadata. rewrite <- Hlen.
  split_and!; [| |done].
  - destruct (Binding.metadata doc !! i) eqn:E.
    + apply lookup_lt_Some in E. split; [done|]. intros _. by eexists.
    + apply lookup_ge_None in E. split; [by intros [? ?]|lia].
  - destruct (Binding.metadata doc !! i) eqn:E.
    + apply lookup_lt_Some in E. split; [done|lia].
    + by apply lookup_ge_None in E.
Qed.

(** X11. A document reads back what was written: after a
    [Document_add_metadata] that returns, the chunk [i] holds the value
    under the key, whatever it held there before, and every other key of
    every chunk holds what it held; the chunk texts are untouched. A chunk
    just added by [Document_add_chunk] holds nothing under any key. *)
Theorem document_reads_back_metadata (doc doc' : Binding.Document_t)
    (i : nat) (key : string) (v : Binding.MetadataValue_t) :
  Binding.Document_add_metadata doc i key v = Ok doc' →
  stored_metadata doc' i key = Some (Binding.value v)
  ∧ (∀ j k, (j, k) ≠ (i, key) →
            stored_metadata doc' j k = stored_metadata doc j k)
  ∧ Binding.chunks doc' = Binding.chunks doc
  ∧ ∀ chunk k,
      stored_metadata (Binding.Document_add_chunk doc' chunk)
        (length (Binding.metadata doc')) k = None.
Proof.
  unfold Binding.Document_add_metadata, stored_metadata.
  destruct (Binding.metadata doc !! i) as [m|] eqn:E; [|done].
  intros [= <-]. simpl.
  pose proof (lookup_lt_Some _ _ _ E) as Hi.
  split_and!.
  - rewrite list_lookup_insert_eq by done. simpl. apply lookup_insert_eq.
  - intros j k Hjk. destruct (decide (j = i)) as [->|Hj].
    + rewrite list_lookup_insert_eq by done. rewrite E. simpl.
      apply lookup_insert_ne. congruence.
    + by rewrite list_lookup_insert_ne.
  - done.
  - intros chunk k. rewrite lookup_app_r by done.
    rewrite Nat.sub_diag. simpl. apply lookup_empty.
Qed.

Lemma document_reads_back_metadata_witness :
  ∃ doc',
    Binding.Document_add_metadata
      (Binding.Document_add_chunk (Binding.Document_new "report" "d1") "a")
      0 "lang" (Binding.MetadataValue_str "en") = Ok doc'
    ∧ stored_metadata doc' 0 "lang" = Some (MetadataValue.Str "en").
Proof.
  eexists. split; [reflexivity|].
  refine (proj1 (document_reads_back_metadata
                   (Binding.Document_add_chunk
                      (Binding.Document_new "report" "d1") "a")
                   _ 0 "lang" (Binding.MetadataValue_str "en") _)).
  reflexivity.
Defined.

(** ** More of the code: the constraint builder *)

Section ConstraintBuilderFacts.
Import Binding.

(** What an addition does to a set, whether it builds a constraint or
    not. *)
Lemma add_cases cs key a :
  (∃ c, built a = Some c ∧ add cs key a = assign cs key c)
  ∨ (built a = None ∧ add cs key a = cs).
Proof.
  destruct (built a) as [c|] eqn:E.
  - left. exists c. split; [done|]. by apply add_built.
  - right. split; [done|]. destruct a as [op v|values]; [|done].
    by apply add_unknown_op.
Qed.

Lemma built_constructed a c :
  addition_constructed a → built a = Some c → Constraint.constructed c.
Proof.
  destruct a as [op v|values]; simpl.
  - destruct op as [|[[]|[]|]|]; simpl; try done; by intros ? [= <-].
  - intros H [= <-]. simpl. by apply Forall_fmap.
Qed.

Lemma assign_size cs key c :
  (size (constraints (assign cs key c)) <= S (size (constraints cs)))%nat.
Proof.
  unfold assign. simpl. destruct (constraints cs !! key) eqn:E.
  - rewrite map_size_insert_Some by done. lia.
  - rewrite map_size_insert_None by done. lia.
Qed.

Lemma build_snoc additions key a :
  build (additions ++ [(key, a)]) = add (build additions) key a.
Proof. unfold build. by rewrite foldl_app. Qed.

End ConstraintBuilderFacts.

(** X12. [Constraints_add_binary_constraint] takes the operator codes 0 to
    3 and nothing else: with any other code it returns having added
    nothing, the set being exactly what it was, and with a code from 0 to 3
    the key is constrained afterwards. *)
Theorem unknown_operator_adds_nothing (cs : Binding.Constraints_t) (op : Z)
    (key : string) (v : Binding.MetadataValue_t) :
  (op < 0 ∨ 3 < op →
   Binding.Constraints_add_binary_constraint cs op key v = cs)
  ∧ (0 <= op <= 3 →
     is_Some (Binding.constraints
                (Binding.Constraints_add_binary_constraint cs op key v)
              !! key)).
Proof.
  unfold Binding.Constraints_add_binary_constraint,
    Binding.BinaryConstraintEq, Binding.BinaryConstraintLt,
    Binding.BinaryConstraintGt, Binding.BinaryConstraintSubstr.
  split.
  - intros H.
    destruct (Z.eqb_spec op 0); [lia|]. destruct (Z.eqb_spec op 1); [lia|].
    destruct (Z.eqb_spec op 2); [lia|]. destruct (Z.eqb_spec op 3); [lia|].
    done.
  - intros H.
    destruct (Z.eqb_spec op 0);
      [simpl; rewrite lookup_insert_eq; by eexists|].
    destruct (Z.eqb_spec op 1);
      [simpl; rewrite lookup_insert_eq; by eexists|].
    destruct (Z.eqb_spec op 2);
      [simpl; rewrite lookup_insert_eq; by eexists|].
    destruct (Z.eqb_spec op 3);
      [simpl; rewrite lookup_insert_eq; by eexists|].
    lia.
Qed.

Lemma unknown_operator_adds_nothing_witness :
  Binding.Constraints_add_binary_constraint Binding.Constraints_new 4 "len"
    (Binding.MetadataValue_int 5) = Binding.Constraints_new
  ∧ is_Some (Binding.constraints
               (Binding.Constraints_add_binary_constraint
                  Binding.Constraints_new 3 "len"
                  (Binding.MetadataValue_int 5)) !! "len").
Proof.
  split.
  - apply (unknown_operator_adds_nothing Binding.Constraints_new 4 "len"
             (Binding.MetadataValue_int 5)). lia.
  - apply (unknown_operator_adds_nothing Binding.Constraints_new 3 "len"
             (Binding.MetadataValue_int 5)). lia.
Defined.

(** X13. Additions under different keys do not interfere: made in either
    order they give the same set. *)
Theorem additions_under_different_keys_commute (cs : Binding.Constraints_t)
    (k1 k2 : string) (a1 a2 : Binding.Addition) :
  k1 ≠ k2 →
  Binding.add (Binding.add cs k1 a1) k2 a2
  = Binding.add (Binding.add cs k2 a2) k1 a1.
Proof.
  intros Hk.
  destruct (built a1) as [c1|] eqn:E1, (built a2) as [c2|] eqn:E2.
  - rewrite !(add_built _ _ a1 c1 E1), !(add_built _ _ a2 c2 E2).
    unfold Binding.assign. simpl. f_equal. by apply insert_insert_ne.
  - destruct a2 as [op v|values]; [|done].
    by rewrite !(add_unknown_op _ _ _ _ E2).
  - destruct a1 as [op v|values]; [|done].
    by rewrite !(add_unknown_op _ _ _ _ E1).
  - destruct a1 as [op1 v1|values]; [|done].
    destruct a2 as [op2 v2|values]; [|done].
    by rewrite !(add_unknown_op _ _ _ _ E1), !(add_unknown_op _ _ _ _ E2).
Qed.

Lemma additions_under_different_keys_commute_witness :
  Binding.add
    (Binding.add Binding.Constraints_new "len"
       (Binding.binary 1 (Binding.MetadataValue_int 5)))
    "lang" (Binding.any_of [Binding.MetadataValue_str "en"])
  = Binding.add
      (Binding.add Binding.Constraints_new "lang"
         (Binding.any_of [Binding.MetadataValue_str "en"]))
      "len" (Binding.binary 1 (Binding.MetadataValue_int 5)).
Proof.
  apply (additions_under_different_keys_commute Binding.Constraints_new
           "len" "lang"). discriminate.
Defined.

(** X14. A constraint set built from [Constraints_new] by additions that
    carry constructed values holds no more constraints than there were
    additions, and each constraint it holds returns on every constructed
    candidate: evaluating a built set never throws. *)
Theorem built_constraints_never_throw
    (additions : list (string * Binding.Addition)) :
  Forall (λ ka, addition_constructed ka.2) additions →
  (size (Binding.constraints (build additions)) <= length additions)%nat
  ∧ ∀ key q c,
      Binding.constraints (build additions) !! key = Some q →
      MetadataValue.constructed c →
      returns (Constraint.matches q c).
Proof.
  intros Hadd.
  assert ((size (Binding.constraints (build additions))
           <= length additions)%nat
          ∧ map_Forall (λ _, Constraint.constructed)
              (Binding.constraints (build additions))) as [Hsize Hall].
  { induction additions as [|[key a] additions IH] using rev_ind.
    - split; [done|]. apply map_Forall_empty.
    - apply Forall_app in Hadd as [Hadd Ha].
      apply Forall_inv in Ha. simpl in Ha.
      destruct (IH Hadd) as [IHsize IHall].
      rewrite build_snoc, length_app. simpl.
      destruct (add_cases (build additions) key a)
        as [(c & Hc & ->)|(_ & ->)].
      + split.
        * pose proof (assign_size (build additions) key c). lia.
        * apply map_Forall_insert_2; [|done]. by eapply built_constructed.
      + split; [lia|done]. }
  split; [done|]. intros key q c Hq Hc.
  apply Constraint_matches_returns; [|done]. by apply (Hall key).
Qed.

Lemma built_constraints_never_throw_witness :
  returns (Constraint.matches
             (Constraint.Substring (MetadataValue.Int 5))
             (MetadataValue.Str "5")).
Proof.
  assert (MetadataValue.constructed (MetadataValue.Int 5)) as H5
    by (constructor;
        unfold MetadataValue.is_int, Std.INT_MIN, Std.INT_MAX; lia).
  refine (proj2 (built_constraints_never_throw
                   [("len", Binding.binary 3 (Binding.MetadataValue_int 5))]
                   _) "len" _ (MetadataValue.Str "5") _ _).
  - apply Forall_singleton. exact H5.
  - reflexivity.
  - constructor.
Defined.

(** X15. The builder takes constraints that nothing can satisfy: an any-of
    addition with no values, and a substring addition whose value is not a
    string, each store under the key a constraint that returns [false] on
    every candidate. *)
Theorem builder_takes_unsatisfiable_constraints (cs : Binding.Constraints_t)
    (key : string) (v : Binding.MetadataValue_t) :
  MetadataValue.type (Binding.value v) ≠ MetadataType.Str →
  (∃ q, Binding.constraints
          (Binding.Constraints_add_any_of_constraint cs key []) !! key
        = Some q
        ∧ ∀ c, Constraint.matches q c = Ok false)
  ∧ (∃ q, Binding.constraints
            (Binding.Constraints_add_binary_constraint cs
               Binding.BinaryConstraintSubstr key v) !! key
          = Some q
          ∧ ∀ c, Constraint.matches q c = Ok false).
Proof.
  intros Hv. split.
  - eexists. split; [apply lookup_insert_eq|done].
  - eexists. split; [apply lookup_insert_eq|].
    intros c. simpl. apply hasSubstring_not_both_Str. by intros [_ ?].
Qed.

Lemma builder_takes_unsatisfiable_constraints_witness :
  ∃ q, Binding.constraints
         (Binding.Constraints_add_binary_constraint Binding.Constraints_new
            Binding.BinaryConstraintSubstr "len"
            (Binding.MetadataValue_int 5)) !! "len"
       = Some q
       ∧ ∀ c, Constraint.matches q c = Ok false.
Proof.
  apply (builder_takes_unsatisfiable_constraints Binding.Constraints_new
           "len" (Binding.MetadataValue_int 5)).
  discriminate.
Defined.

(** ** More of the code: the lists handed across the C interface *)

Section ListFacts.
Import BindingLists.

Lemma to_unsigned_int_small n :
  Z.of_nat n < 2 ^ 32 → to_unsigned_int n = Z.of_nat n.
Proof. intros H. unfold to_unsigned_int. apply Z.mod_small. lia. Qed.

Lemma vector_at_returns {A} (v : list A) i :
  returns (vector_at v i) ↔ (i < length v)%nat.
Proof.
  unfold vector_at. destruct (v !! i) eqn:E.
  - apply lookup_lt_Some in E. split; [done|]. intros _. by eexists.
  - apply lookup_ge_None in E. split; [by intros [? ?]|lia].
Qed.

Lemma vector_at_throws {A} (v : list A) i :
  vector_at v i = Throw out_of_range ↔ (length v <= i)%nat.
Proof.
  unfold vector_at. destruct (v !! i) eqn:E.
  - apply lookup_lt_Some in E. split; [done|lia].
  - by apply lookup_ge_None in E.
Qed.

(** An accessor that reads a field of the element at [i] returns for the
    indices [vector_at] returns for, and throws what it throws. *)
Lemma field_at_returns {A B} (v : list A) (f : A → B) i :
  (returns (x ← vector_at v i; Ok (f x)) ↔ (i < length v)%nat)
  ∧ ((x ← vector_at v i; Ok (f x)) = Throw out_of_range
     ↔ (length v <= i)%nat).
Proof.
  unfold vector_at. destruct (v !! i) eqn:E; simpl.
  - apply lookup_lt_Some in E. split; split; try done; try lia.
    intros _. by eexists.
  - apply lookup_ge_None in E. split; split; try done; try lia.
    by intros [? ?].
Qed.

End ListFacts.

(** X16. In a metadata list of constructed values, the type code of an
    entry says which typed accessor returns on it: code 0 [MetadataList_bool],
    1 [MetadataList_int], 2 [MetadataList_float], 3 [MetadataList_str], and
    on an entry of another code the accessor throws; an integer accessor
    returns the integer the entry was made of. The type is returned exactly
    for the indices below the length of the list, and past the end each
    accessor throws [std::out_of_range]. *)
Theorem metadata_list_type_tells_accessor (m : BindingLists.MetadataList_t)
    (i : nat) :
  Forall (λ p, MetadataValue.constructed p.2) (BindingLists.metadata m) →
  (returns (BindingLists.MetadataList_type m i)
   ↔ (i < length (BindingLists.metadata m))%nat)
  ∧ (BindingLists.MetadataList_type m i = Ok 0
     ↔ returns (BindingLists.MetadataList_bool m i))
  ∧ (BindingLists.MetadataList_type m i = Ok 1
     ↔ returns (BindingLists.MetadataList_int m i))
  ∧ (BindingLists.MetadataList_type m i = Ok 2
     ↔ returns (BindingLists.MetadataList_float m i))
  ∧ (BindingLists.MetadataList_type m i = Ok 3
     ↔ returns (BindingLists.MetadataList_str m i))
  ∧ (∀ x, BindingLists.MetadataList_int m i = Ok x
          ↔ ∃ key, BindingLists.metadata m !! i
                   = Some (key, MetadataValue.Int x))
  ∧ ((length (BindingLists.metadata m) <= i)%nat
     ↔ BindingLists.MetadataList_key m i = Throw out_of_range
       ∧ BindingLists.MetadataList_type m i = Throw out_of_range
       ∧ BindingLists.MetadataList_bool m i = Throw out_of_range
       ∧ BindingLists.MetadataList_int m i = Throw out_of_range
       ∧ BindingLists.MetadataList_float m i = Throw out_of_range
       ∧ BindingLists.MetadataList_str m i = Throw out_of_range).
Proof.
  intros Hall.
  unfold BindingLists.MetadataList_type, BindingLists.MetadataList_key,
    BindingLists.MetadataList_bool, BindingLists.MetadataList_int,
    BindingLists.MetadataList_float, BindingLists.MetadataList_str,
    BindingLists.vector_at.
  destruct (BindingLists.metadata m !! i) as [[key v]|] eqn:E; simpl.
  - pose proof (lookup_lt_Some _ _ _ E) as Hi.
    pose proof (Forall_lookup_1 _ _ _ _ Hall E) as Hv. simpl in Hv.
    destruct Hv; unfold returns; simpl; split_and!;
      try (split; [by intros [=]|by intros [? [=]]]);
      try (split; [by eexists|done]);
      try (split; [lia|by intros [[=] _]]).
    all: try (intros x; split; [by intros [=]|by intros [? [=]]]).
    all: try (split; [done|intros _; by eexists]).
    intros x. split.
    + intros [= ->]. by exists key.
    + by intros [? [= _ ->]].
  - apply lookup_ge_None in E. unfold returns. split_and!;
      try (split; [by intros [? [=]]|lia]);
      try (split; [by intros [=]|by intros [? [=]]]).
    done.
Qed.

Lemma metadata_list_type_tells_accessor_witness :
  BindingLists.MetadataList_type
    {| BindingLists.metadata := [("len", MetadataValue.Int 5)] |} 0 = Ok 1
  ∧ returns (BindingLists.MetadataList_int
               {| BindingLists.metadata := [("len", MetadataValue.Int 5)] |}
               0).
Proof.
  split; [reflexivity|].
  refine (proj1 (proj1 (proj2 (proj2 (metadata_list_type_tells_accessor
            {| BindingLists.metadata := [("len", MetadataValue.Int 5)] |}
            0 _)))) _); [|reflexivity].
  apply Forall_singleton. constructor.
  unfold MetadataValue.is_int, Std.INT_MIN, Std.INT_MAX. lia.
Defined.

(** X17. The metadata list of a query result is the metadata map of its
    chunk, pair by pair: it has one entry for each key of the map and no key
    twice, a pair is in the list exactly when the map holds the value under
    the key, and reading the list back as a map gives the map. *)
Theorem query_result_metadata_is_the_chunk_map
    (r : BindingLists.QueryResults_t) (i : nat)
    (ml : BindingLists.MetadataList_t) :
  BindingLists.QueryResults_metadata r i = Ok ml →
  ∃ chunk score,
    BindingLists.results r !! i = Some (chunk, score)
    ∧ list_to_map (BindingLists.metadata ml) = Chunk.metadata chunk
    ∧ NoDup (BindingLists.metadata ml).*1
    ∧ length (BindingLists.metadata ml) = size (Chunk.metadata chunk)
    ∧ ∀ key v, (key, v) ∈ BindingLists.metadata ml
               ↔ Chunk.metadata chunk !! key = Some v.
Proof.
  unfold BindingLists.QueryResults_metadata, BindingLists.vector_at.
  destruct (BindingLists.results r !! i) as [[chunk score]|]; [|done].
  simpl. intros [= <-]. exists chunk, score. simpl. split_and!.
  - done.
  - apply list_to_map_to_list.
  - apply NoDup_fst_map_to_list.
  - apply length_map_to_list.
  - intros key v. apply elem_of_map_to_list.
Qed.

Lemma query_result_metadata_is_the_chunk_map_witness :
  ∃ ml,
    BindingLists.QueryResults_metadata
      {| BindingLists.results :=
           [(Chunk.mk 0 "a" "report" "d1" 1 english_chunk, S754_zero false)] |}
      0 = Ok ml
    ∧ (list_to_map (BindingLists.metadata ml) : gmap string MetadataValue.t)
      = english_chunk.
Proof.
  eexists. split; [reflexivity|].
  destruct (query_result_metadata_is_the_chunk_map
              {| BindingLists.results :=
                   [(Chunk.mk 0 "a" "report" "d1" 1 english_chunk,
                     S754_zero false)] |}
              0 _ eq_refl) as (chunk & score & [= <- _] & Hmap & _).
  exact Hmap.
Defined.

(** X18. On a list of fewer than [2^32] query results, [QueryResults_len]
    is the number of results, every accessor returns for the indices below
    it, and for the other indices every accessor throws
    [std::out_of_range]. *)
Theorem query_results_index_bounds (r : BindingLists.QueryResults_t)
    (i : nat) :
  Z.of_nat (length (BindingLists.results r)) < 2 ^ 32 →
  BindingLists.QueryResults_len r
  = Z.of_nat (length (BindingLists.results r))
  ∧ (Z.of_nat i < BindingLists.QueryResults_len r
     ↔ returns (BindingLists.QueryResults_id r i)
       ∧ returns (BindingLists.QueryResults_text r i)
       ∧ returns (BindingLists.QueryResults_document r i)
       ∧ returns (BindingLists.QueryResults_doc_id r i)
       ∧ returns (BindingLists.QueryResults_doc_version r i)
       ∧ returns (BindingLists.QueryResults_score r i)
       ∧ returns (BindingLists.QueryResults_metadata r i))
  ∧ (BindingLists.QueryResults_len r <= Z.of_nat i
     ↔ BindingLists.QueryResults_id r i = Throw out_of_range
       ∧ BindingLists.QueryResults_text r i = Throw out_of_range
       ∧ BindingLists.QueryResults_document r i = Throw out_of_range
       ∧ BindingLists.QueryResults_doc_id r i = Throw out_of_range
       ∧ BindingLists.QueryResults_doc_version r i = Throw out_of_range
       ∧ BindingLists.QueryResults_score r i = Throw out_of_range
       ∧ BindingLists.QueryResults_metadata r i = Throw out_of_range).
Proof.
  intros Hlen. unfold BindingLists.QueryResults_len.
  rewrite (to_unsigned_int_small _ Hlen). split; [done|].
  unfold BindingLists.QueryResults_id, BindingLists.QueryResults_text,
    BindingLists.QueryResults_document, BindingLists.QueryResults_doc_id,
    BindingLists.QueryResults_doc_version, BindingLists.QueryResults_score,
    BindingLists.QueryResults_metadata.
  rewrite !(proj1 (field_at_returns _ _ _)),
    !(proj2 (field_at_returns _ _ _)).
  split; split; lia.
Qed.

Lemma query_results_index_bounds_witness :
  BindingLists.QueryResults_len {| BindingLists.results := [] |} = 0
  ∧ BindingLists.QueryResults_id {| BindingLists.results := [] |} 0
    = Throw out_of_range.
Proof.
  destruct (query_results_index_bounds {| BindingLists.results := [] |} 0)
    as (Hlen & _ & Hthrow); [reflexivity|].
  split; [exact Hlen|]. apply Hthrow. rewrite Hlen. reflexivity.
Defined.

(** X19. On a list of fewer than [2^32] sources, [Sources_len] is the number
    of sources, the three accessors return for the indices below it, and
    for the other indices each throws [std::out_of_range]. *)
Theorem sources_index_bounds (s : BindingLists.Sources_t) (i : nat) :
  Z.of_nat (length (BindingLists.sources s)) < 2 ^ 32 →
  BindingLists.Sources_len s = Z.of_nat (length (BindingLists.sources s))
  ∧ (Z.of_nat i < BindingLists.Sources_len s
     ↔ returns (BindingLists.Sources_document s i)
       ∧ returns (BindingLists.Sources_doc_id s i)
       ∧ returns (BindingLists.Sources_doc_version s i))
  ∧ (BindingLists.Sources_len s <= Z.of_nat i
     ↔ BindingLists.Sources_document s i = Throw out_of_range
       ∧ BindingLists.Sources_doc_id s i = Throw out_of_range
       ∧ BindingLists.Sources_doc_version s i = Throw out_of_range).
Proof.
  intros Hlen. unfold BindingLists.Sources_len.
  rewrite (to_unsigned_int_small _ Hlen). split; [done|].
  unfold BindingLists.Sources_document, BindingLists.Sources_doc_id,
    BindingLists.Sources_doc_version.
  rewrite !(proj1 (field_at_returns _ _ _)),
    !(proj2 (field_at_returns _ _ _)).
  split; split; lia.
Qed.

Lemma sources_index_bounds_witness :
  returns (BindingLists.Sources_doc_id
             {| BindingLists.sources := [Source.mk "report" "d1" 1] |} 0).
Proof.
  destruct (sources_index_bounds
              {| BindingLists.sources := [Source.mk "report" "d1" 1] |} 0)
    as (Hlen & Hret & _); [reflexivity|].
  apply Hret. rewrite Hlen. reflexivity.
Defined.

(** X20. A label list built by [LabelList_append] has one group for each
    appended id, in order, and every group holds exactly that one id; a
    string list built by [StringList_append] holds the appended strings in
    order. So [n] appends to each give [finetune] parallel arrays of length
    [n], with one label for each query. *)
Theorem label_groups_are_singletons (ids : list N) (strings : list string) :
  let labels := foldl BindingLists.LabelList_append
                  BindingLists.LabelList_new ids in
  let queries := foldl BindingLists.StringList_append
                   BindingLists.StringList_new strings in
  BindingLists.LabelList_list labels = (λ id, [id]) <$> ids
  ∧ Forall (λ group, length group = 1%nat)
      (BindingLists.LabelList_list labels)
  ∧ concat (BindingLists.LabelList_list labels) = ids
  ∧ length (BindingLists.LabelList_list labels) = length ids
  ∧ BindingLists.StringList_list queries = strings.
Proof.
  intros labels queries.
  assert (∀ l, BindingLists.LabelList_list
                 (foldl BindingLists.LabelList_append l ids)
               = BindingLists.LabelList_list l ++ ((λ id, [id]) <$> ids))
    as Hl.
  { induction ids as [|id ids IH]; intros l; simpl.
    - by rewrite app_nil_r.
    - rewrite IH. simpl. by rewrite <- app_assoc. }
  assert (∀ l, BindingLists.StringList_list
                 (foldl BindingLists.StringList_append l strings)
               = BindingLists.StringList_list l ++ strings) as Hs.
  { induction strings as [|x strings IH]; intros l; simpl.
    - by rewrite app_nil_r.
    - rewrite IH. simpl. by rewrite <- app_assoc. }
  subst labels queries. rewrite Hl, Hs. simpl. split_and!; try done.
  - apply Forall_fmap, Forall_forall. done.
  - clear. induction ids as [|id ids IH]; simpl; [done|]. by f_equal.
  - apply length_fmap.
Qed.

(** X21. The message of a type mismatch names the two kinds involved: two
    mismatches carry the same message only when the stored kinds are the
    same and the requested kinds are the same. *)
Theorem type_mismatch_message_names_kinds
    (stored expected stored' expected' : MetadataType.t) :
  MetadataValue.TypeMismatch stored expected
  = MetadataValue.TypeMismatch stored' expected'
  ↔ stored = stored' ∧ expected = expected'.
Proof.
  split; [|by intros [-> ->]].
  destruct stored, expected, stored', expected'; try done;
    intros [=].
Qed.

(** X22. Nothing is below the least value of a kind and nothing above the
    greatest: on every constructed candidate, a [LessThan] constraint made
    with [false], with the least [int], with minus infinity or with the
    empty string returns [false], and so does a [GreaterThan] constraint
    made with [true], with the greatest [int] or with plus infinity. A
    [LessThan] or [GreaterThan] constraint made with a default value
    returns [false] as well. *)
Theorem extreme_bounds_match_nothing (c : MetadataValue.t) :
  MetadataValue.constructed c →
  Forall (λ q, Constraint.matches q c = Ok false)
    [ Constraint.LessThan (MetadataValue.Bool false);
      Constraint.LessThan (MetadataValue.Int Std.INT_MIN);
      Constraint.LessThan (MetadataValue.Float (S754_infinity true));
      Constraint.LessThan (MetadataValue.Str "");
      Constraint.GreaterThan (MetadataValue.Bool true);
      Constraint.GreaterThan (MetadataValue.Int Std.INT_MAX);
      Constraint.GreaterThan (MetadataValue.Float (S754_infinity false));
      Constraint.LessThan MetadataValue.default;
      Constraint.GreaterThan MetadataValue.default ].
Proof.
  intros Hc. repeat apply Forall_cons_2; [..|apply Forall_nil_2]; simpl;
    unfold MetadataValue.lessThan, MetadataValue.greaterThan;
    destruct Hc as [|b|i Hi|f Hf|s]; simpl; try done;
    unfold Std.variant_lt, Std.variant_gt; simpl; f_equal.
  - by destruct b.
  - apply Z.ltb_ge. apply Hi.
  - by destruct f as [[]|[]| |[] ? ?].
  - apply not_true_is_false. rewrite string_lt_spec. inversion 1.
  - by destruct b.
  - rewrite Z.gtb_ltb. apply Z.ltb_ge. apply Hi.
  - by destruct f as [[]|[]| |[] ? ?].
Qed.

Lemma extreme_bounds_match_nothing_witness :
  Constraint.matches (Constraint.LessThan (MetadataValue.Str ""))
    (MetadataValue.Str "a") = Ok false.
Proof.
  pose proof (extreme_bounds_match_nothing (MetadataValue.Str "a")
                (MetadataValue.constructed_Str "a")) as H.
  exact (Forall_inv (Forall_inv_tail (Forall_inv_tail (Forall_inv_tail H)))).
Defined.

(** X23. On constructed values, an [EqualTo] constraint made with [v]
    matches the candidate [c] exactly when the two are of one kind and hold
    the same boolean, the same integer, the same string, floats that are
    equal (the two zeros are, a NaN is equal to nothing), or are both
    default values. *)
Theorem equal_to_matches_same_scalar (v c : MetadataValue.t) :
  MetadataValue.constructed v → MetadataValue.constructed c →
  Constraint.matches (Constraint.EqualTo v) c = Ok true ↔ same_scalar v c.
Proof.
  intros Hv Hc. simpl. unfold MetadataValue.equals.
  destruct Hv as [|x|x Hx|x Hx|x], Hc as [|y|y Hy|y Hy|y];
    unfold Std.variant_eq; simpl;
    try (split; [by intros [=]|by inversion 1]).
  - split; [constructor|done].
  - split.
    + intros [= H]. apply Bool.eqb_prop in H as ->. constructor.
    + inversion 1. by rewrite Bool.eqb_reflx.
  - split.
    + intros [= H]. apply Z.eqb_eq in H as ->. constructor.
    + inversion 1. by rewrite Z.eqb_refl.
  - split.
    + intros [= H]. by constructor.
    + inversion 1 as [| | |? ? H'|]. by rewrite H'.
  - split.
    + intros [= H]. apply string_eq_spec in H as ->. constructor.
    + inversion 1. f_equal. by apply string_eq_spec.
Qed.

Lemma equal_to_matches_same_scalar_witness :
  Constraint.matches (Constraint.EqualTo (MetadataValue.Str "en"))
    (MetadataValue.Str "en") = Ok true
  ↔ same_scalar (MetadataValue.Str "en") (MetadataValue.Str "en").
Proof.
  apply (equal_to_matches_same_scalar (MetadataValue.Str "en")
           (MetadataValue.Str "en")); constructor.
Defined.
